(** * Verification of the image-editor core (image-editor.js)

    Shallow embedding of the parts of [ImageEditor], [AnimationQueue],
    [Command] and [HistoryManager] that the specification talks about.
    Numbers the source keeps in JS doubles (scales, angles, positions)
    are modelled as rationals [Q]; pixel sizes as [Z].  The rendering
    library (fabric.js) is treated as an external capability: its
    geometry queries are passed in as parameters and its asynchronous
    callbacks are explicit steps of the model. *)

From Stdlib Require Import Strings.String Strings.Ascii.
From Stdlib Require Import QArith Qminmax Qround ZArith List Bool Lia Lqa.
Import ListNotations.

Open Scope Z_scope.

(** Small list helpers used by the embedding. *)

(** [a.slice(0, n)] for [n >= 0]. *)
Definition slice0 {A} (l : list A) (n : Z) : list A := firstn (Z.to_nat n) l.

(** [a[i] = x] for an index inside the array. *)
Fixpoint replace_nth {A} (l : list A) (i : nat) (x : A) : list A :=
  match l, i with
  | [], _ => []
  | _ :: r, O => x :: r
  | y :: r, S i' => y :: replace_nth r i' x
  end.

(** JS [a[i]] for an integer index: [None] plays [undefined]. *)
Definition js_index {A} (l : list A) (i : Z) : option A :=
  if i <? 0 then None else nth_error l (Z.to_nat i).

(** * HistoryManager and Command

    [class HistoryManager]: a list of commands with a cursor
    [currentIndex] and a capacity [maxSize].  A command is opaque to the
    manager; calling [command.execute()] may update the command's own
    closure state (the [executedOnce] flag of [saveState]) and the
    editor, so execution returns both. *)

Module HistoryManager.

Record t (C : Type) := mk {
  history : list C;
  currentIndex : Z;
  maxSize : Z
}.
Arguments mk {C}.
Arguments history {C}.
Arguments currentIndex {C}.
Arguments maxSize {C}.

(** [constructor(maxSize = 50)] *)
Definition create {C} (maxSize : Z) : t C := mk [] (-1) maxSize.

Section Ops.
Context {E C : Type}.
(** [command.execute()] and [command.undo()], acting on the editor state [E]. *)
Variable cmd_execute : C -> E -> E * C.
Variable cmd_undo : C -> E -> E.

(** [execute(command)] *)
Definition execute (command : C) (h : t C) (e : E) : t C * E :=
  let '(e1, command1) := cmd_execute command e in
  let hist1 :=
    if currentIndex h <? Z.of_nat (length (history h)) - 1
    then slice0 (history h) (currentIndex h + 1)
    else history h in
  let hist2 := hist1 ++ [command1] in
  if Z.of_nat (length hist2) >? maxSize h
  then (mk (tl hist2) (currentIndex h) (maxSize h), e1)
  else (mk hist2 (currentIndex h + 1) (maxSize h), e1).

(** [canUndo()] *)
Definition canUndo (h : t C) : bool := 0 <=? currentIndex h.

(** [canRedo()] *)
Definition canRedo (h : t C) : bool :=
  currentIndex h <? Z.of_nat (length (history h)) - 1.

(** [undo()]; [None] stands for the [TypeError] thrown when the slot
    at the cursor is [undefined]. *)
Definition undo (h : t C) (e : E) : option (t C * E) :=
  if 0 <=? currentIndex h then
    match js_index (history h) (currentIndex h) with
    | Some c => Some (mk (history h) (currentIndex h - 1) (maxSize h), cmd_undo c e)
    | None => None
    end
  else Some (h, e).

(** [redo()] *)
Definition redo (h : t C) (e : E) : option (t C * E) :=
  if currentIndex h <? Z.of_nat (length (history h)) - 1 then
    let i := currentIndex h + 1 in
    match js_index (history h) i with
    | Some c =>
        let '(e1, c1) := cmd_execute c e in
        Some (mk (replace_nth (history h) (Z.to_nat i) c1) i (maxSize h), e1)
    | None => None
    end
  else Some (h, e).

(** The cursor invariant of the spec: [-1 <= currentIndex <= length - 1]. *)
Definition cursor_ok (h : t C) : Prop :=
  -1 <= currentIndex h <= Z.of_nat (length (history h)) - 1.

(** States reachable from a fresh manager through the public methods. *)
Inductive reachable : t C -> E -> Prop :=
| reach_create : forall n e, 0 <= n -> reachable (create n) e
| reach_execute : forall h e c, reachable h e ->
    reachable (fst (execute c h e)) (snd (execute c h e))
| reach_undo : forall h e h' e', reachable h e -> undo h e = Some (h', e') ->
    reachable h' e'
| reach_redo : forall h e h' e', reachable h e -> redo h e = Some (h', e') ->
    reachable h' e'.

End Ops.
End HistoryManager.

(** * AnimationQueue

    [class AnimationQueue]: a FIFO of [{fn, resolve, reject}] entries and a
    [running] flag.  The model makes explicit what the JS keeps in the
    suspended [processQueue] call: the operation in flight, as the caller
    id of its entry and the continuation of the promise [fn()] returned.
    Starting [fn] runs its synchronous part on the shared state [E] and
    yields that continuation; when the awaited work settles with [r], the
    continuation runs the handlers attached to it and gives the outcome of
    [fn()]'s promise, which is delivered to the caller ([resolve]/[reject]).
    Caller ids stand for the caller-side promises of [add]; the log records
    which operation was started and what each caller received. *)

(** How a promise settles. *)
Inductive outcome := Fulfilled | Rejected.

Module AnimationQueue.

Inductive event (J : Type) :=
| Start (caller : nat) (job : J)
| Deliver (caller : nat) (o : outcome).
Arguments Start {J}.
Arguments Deliver {J}.

Record t (E J : Type) := mk {
  queue : list (nat * J);
  running : bool;
  inflight : option (nat * (outcome -> E -> E * outcome));
  env : E;
  log : list (event J)
}.
Arguments mk {E J}.
Arguments queue {E J}.
Arguments running {E J}.
Arguments inflight {E J}.
Arguments env {E J}.
Arguments log {E J}.

(** A fresh queue over the state [e]. *)
Definition create {E J} (e : E) : t E J := mk [] false None e [].

Section Ops.
Context {E J : Type}.
(** Calling [fn()]: its synchronous effect and the continuation of its promise. *)
Variable start : J -> E -> E * (outcome -> E -> E * outcome).

(** [processQueue()] up to its [await]. *)
Definition processQueue (s : t E J) : t E J :=
  match queue s with
  | [] => mk [] false (inflight s) (env s) (log s)
  | (i, j) :: rest =>
      let '(e1, k) := start j (env s) in
      mk rest true (Some (i, k)) e1 (log s ++ [Start i j])
  end.

(** [add(animationFn)] from caller [i]. *)
Definition add (i : nat) (j : J) (s : t E J) : t E J :=
  let s1 := mk (queue s ++ [(i, j)]) (running s) (inflight s) (env s) (log s) in
  if running s1 then s1 else processQueue s1.

(** The awaited work of the operation in flight settles with [r]: the
    handlers run, the caller gets the outcome of [fn()]'s promise
    ([resolve] or [reject]), and [processQueue()] is called again. *)
Definition settle (r : outcome) (s : t E J) : t E J :=
  match inflight s with
  | None => s
  | Some (i, k) =>
      let '(e1, o) := k r (env s) in
      processQueue (mk (queue s) (running s) None e1 (log s ++ [Deliver i o]))
  end.

End Ops.

(** What the surrounding event loop does: a caller enqueues, or the
    operation in flight settles. *)
Inductive input (J : Type) :=
| EAdd (caller : nat) (job : J)
| ESettle (r : outcome).
Arguments EAdd {J}.
Arguments ESettle {J}.

Definition step {E J} start (s : t E J) (x : input J) : t E J :=
  match x with
  | EAdd i j => add start i j s
  | ESettle r => settle start r s
  end.

Definition run {E J} start (xs : list (input J)) (s : t E J) : t E J :=
  fold_left (step start) xs s.

(** The submissions, the started operations and the settled pairs. *)
Definition added {J} (xs : list (input J)) : list (nat * J) :=
  flat_map (fun x => match x with EAdd i j => [(i, j)] | ESettle _ => [] end) xs.

Definition started {J} (l : list (event J)) : list (nat * J) :=
  flat_map (fun ev => match ev with Start i j => [(i, j)] | Deliver _ _ => [] end) l.

Definition completed {J} (ps : list (nat * J * outcome)) : list (event J) :=
  flat_map (fun '(i, j, o) => [Start i j; Deliver i o]) ps.

Definition inflight_log {J} (cur : option (nat * J)) : list (event J) :=
  match cur with Some (i, j) => [Start i j] | None => [] end.

(** The queue invariant after the inputs [xs]: operations start in
    submission order; the log is a sequence of start/deliver pairs of the
    same caller, followed by the start of the operation in flight; an
    operation is in flight exactly when [running] is set; and nothing
    waits in the queue while nothing is in flight. *)
Definition Inv {E J} (xs : list (input J)) (s : t E J) : Prop :=
  started (log s) ++ queue s = added xs /\
  (exists ps cur, log s = completed ps ++ inflight_log cur /\
                  option_map fst cur = option_map fst (inflight s)) /\
  running s = match inflight s with Some _ => true | None => false end /\
  (inflight s = None -> queue s = []).

End AnimationQueue.

(** * Editor data model *)

Module ImageEditor.

Open Scope Q_scope.

(** JS [Math.max] / [Math.min] on two numbers (no NaN in the model). *)
Definition js_max (a b : Q) : Q := if Qle_bool a b then b else a.
Definition js_min (a b : Q) : Q := if Qle_bool a b then a else b.

(** JS [Math.round] on a non-NaN number. *)
Definition js_round (x : Q) : Z := Qfloor (x + (1 # 2)).

(** The loaded [fabric.Image]: native pixel size, whether it has a source
    element ([getElement()]), and its on-scene transform. *)
Record FImage := mkImage {
  img_width : Z;
  img_height : Z;
  img_element : bool;
  img_scale : Q;           (* scaleX = scaleY *)
  img_angle : Q
}.

(** A mask object: a [fabric.Rect] carrying the custom [maskId].  Its
    [maskName] (prefix followed by the id) is not read by any property
    checked here and is left out. *)
Record Mask := mkMask {
  maskId : Z;
  m_left : Q;
  m_top : Q;
  m_width : Q;
  m_height : Q;
  m_scaleX : Q;
  opacity : Q;
  fill : String.string;
  stroke : option String.string;   (* [None] is [null] *)
  strokeWidth : Q;
  selectable : bool;
  lockRotation : bool;
  originalAlpha : Q
}.

(** [canvas.toJSON(['maskId','maskName'])] once labels are hidden: the
    base image and the masks. *)
Record Snapshot := mkSnapshot {
  snap_image : option FImage;
  snap_masks : list Mask
}.

(** The options read by the modelled code. *)
Record Options := mkOptions {
  canvasWidth : Q;
  canvasHeight : Q;
  minScale : Q;
  maxScale : Q;
  expandCanvasToImage : bool;
  fitImageToCanvas : bool;
  downsampleOnLoad : bool;
  downsampleMaxWidth : Q;
  downsampleMaxHeight : Q;
  exportMultiplier : Q;
  exportImageAreaByDefault : bool;
  defaultMaskWidth : Q;
  defaultMaskHeight : Q;
  maskRotatable : bool
}.

(** The constructor's defaults. *)
Definition default_options : Options :=
  mkOptions 800 600 (1 # 10) 5 true false true 4000 3000 1 true 50 80 false.

(** The [Command] built by [saveState]: its two closures capture the
    [before] and [after] snapshots and the mutable [executedOnce] flag. *)
Record Cmd := mkCmd {
  before : Snapshot;
  after : Snapshot;
  executedOnce : bool
}.

(** The runtime state of an [ImageEditor] (with a canvas attached).
    [masks] are the canvas objects carrying a [maskId], in stacking order;
    [active] is the [maskId] of the canvas' active object.  Labels are
    transient overlays that snapshots exclude and are not modelled. *)
Record Editor := mkEditor {
  options : Options;
  originalImage : option FImage;
  masks : list Mask;
  active : option Z;
  baseImageScale : Q;
  currentScale : Q;
  currentRotation : Q;
  maskCounter : Z;
  isAnimating : bool;
  lastMaskInitialLeft : option Q;
  lastMaskInitialTop : option Q;
  lastMaskInitialWidth : option Q;
  lastMask : option Mask;
  lastSnapshot : option Snapshot;
  historyManager : HistoryManager.t Cmd
}.

(** Field updates. *)
Definition set_scene (img : option FImage) (ms : list Mask) (e : Editor) : Editor :=
  mkEditor (options e) img ms (active e) (baseImageScale e) (currentScale e)
    (currentRotation e) (maskCounter e) (isAnimating e) (lastMaskInitialLeft e)
    (lastMaskInitialTop e) (lastMaskInitialWidth e) (lastMask e) (lastSnapshot e)
    (historyManager e).
Definition set_masks (ms : list Mask) (e : Editor) : Editor :=
  set_scene (originalImage e) ms e.
Definition set_image (img : option FImage) (e : Editor) : Editor :=
  set_scene img (masks e) e.
Definition set_active (a : option Z) (e : Editor) : Editor :=
  mkEditor (options e) (originalImage e) (masks e) a (baseImageScale e) (currentScale e)
    (currentRotation e) (maskCounter e) (isAnimating e) (lastMaskInitialLeft e)
    (lastMaskInitialTop e) (lastMaskInitialWidth e) (lastMask e) (lastSnapshot e)
    (historyManager e).
Definition set_transform (base sc rot : Q) (e : Editor) : Editor :=
  mkEditor (options e) (originalImage e) (masks e) (active e) base sc rot
    (maskCounter e) (isAnimating e) (lastMaskInitialLeft e)
    (lastMaskInitialTop e) (lastMaskInitialWidth e) (lastMask e) (lastSnapshot e)
    (historyManager e).
Definition set_currentScale (sc : Q) (e : Editor) : Editor :=
  set_transform (baseImageScale e) sc (currentRotation e) e.
Definition set_currentRotation (rot : Q) (e : Editor) : Editor :=
  set_transform (baseImageScale e) (currentScale e) rot e.
Definition set_maskCounter (n : Z) (e : Editor) : Editor :=
  mkEditor (options e) (originalImage e) (masks e) (active e) (baseImageScale e)
    (currentScale e) (currentRotation e) n (isAnimating e) (lastMaskInitialLeft e)
    (lastMaskInitialTop e) (lastMaskInitialWidth e) (lastMask e) (lastSnapshot e)
    (historyManager e).
Definition set_isAnimating (b : bool) (e : Editor) : Editor :=
  mkEditor (options e) (originalImage e) (masks e) (active e) (baseImageScale e)
    (currentScale e) (currentRotation e) (maskCounter e) b (lastMaskInitialLeft e)
    (lastMaskInitialTop e) (lastMaskInitialWidth e) (lastMask e) (lastSnapshot e)
    (historyManager e).
Definition set_lastMaskInitial (l t w : option Q) (e : Editor) : Editor :=
  mkEditor (options e) (originalImage e) (masks e) (active e) (baseImageScale e)
    (currentScale e) (currentRotation e) (maskCounter e) (isAnimating e) l t w
    (lastMask e) (lastSnapshot e) (historyManager e).
Definition set_lastMask (m : option Mask) (e : Editor) : Editor :=
  mkEditor (options e) (originalImage e) (masks e) (active e) (baseImageScale e)
    (currentScale e) (currentRotation e) (maskCounter e) (isAnimating e)
    (lastMaskInitialLeft e) (lastMaskInitialTop e) (lastMaskInitialWidth e) m
    (lastSnapshot e) (historyManager e).
Definition set_lastSnapshot (s : option Snapshot) (e : Editor) : Editor :=
  mkEditor (options e) (originalImage e) (masks e) (active e) (baseImageScale e)
    (currentScale e) (currentRotation e) (maskCounter e) (isAnimating e)
    (lastMaskInitialLeft e) (lastMaskInitialTop e) (lastMaskInitialWidth e)
    (lastMask e) s (historyManager e).
Definition set_history (h : HistoryManager.t Cmd) (e : Editor) : Editor :=
  mkEditor (options e) (originalImage e) (masks e) (active e) (baseImageScale e)
    (currentScale e) (currentRotation e) (maskCounter e) (isAnimating e)
    (lastMaskInitialLeft e) (lastMaskInitialTop e) (lastMaskInitialWidth e)
    (lastMask e) (lastSnapshot e) h.

(** [new ImageEditor(options)]; [init()] attaches the canvas. *)
Definition create (o : Options) : Editor :=
  mkEditor o None [] None 1 1 0 0 false None None None None None
    (HistoryManager.create 50%Z).

(** The scene as [toJSON] serialises it. *)
Definition snapshot (e : Editor) : Snapshot := mkSnapshot (originalImage e) (masks e).

(** [_onSelectionChanged(selected)]: the selected mask gets the red
    stroke, every other mask the neutral one. *)
Definition restyle (sel : option Z) (m : Mask) : Mask :=
  let st := match sel with
            | Some i => if Z.eqb (maskId m) i then "#ff0000"%string else "#ccc"%string
            | None => "#ccc"%string
            end in
  mkMask (maskId m) (m_left m) (m_top m) (m_width m) (m_height m) (m_scaleX m)
    (opacity m) (fill m) (Some st) 1 (selectable m) (lockRotation m) (originalAlpha m).

Definition onSelectionChanged (sel : option Z) (e : Editor) : Editor :=
  set_masks (map (restyle sel) (masks e)) e.

(** [canvas.discardActiveObject()]: fires [selection:cleared] (hence
    [_onSelectionChanged([])]) when something was active. *)
Definition discardActiveObject (e : Editor) : Editor :=
  match active e with
  | Some _ => onSelectionChanged None (set_active None e)
  | None => e
  end.

(** [masks.reduce((max, m) => Math.max(max, m.maskId), 0)] *)
Definition max_mask_id (ms : list Mask) : Z :=
  fold_left (fun acc m => Z.max acc (maskId m)) ms 0%Z.

(** [loadFromState(json)]: [loadFromJSON] replaces the canvas content
    (clearing the selection); its callback finds the base image.  When the
    snapshot has no image, [this.originalImage.set(...)] throws on [null]
    and the rest of the callback (the [maskCounter] update) is skipped. *)
Definition loadFromState (s : Snapshot) (e : Editor) : Editor :=
  let e1 := set_active None (set_scene (snap_image s) (snap_masks s) e) in
  match snap_image s with
  | None => e1
  | Some _ => set_maskCounter (max_mask_id (snap_masks s)) e1
  end.

(** The two closures of the [Command] built by [saveState]. *)
Definition cmd_execute (c : Cmd) (e : Editor) : Editor * Cmd :=
  ((if executedOnce c then loadFromState (after c) e else e),
   mkCmd (before c) (after c) true).
Definition cmd_undo (c : Cmd) (e : Editor) : Editor := loadFromState (before c) e.

(** [saveState()] *)
Definition saveState (e : Editor) : Editor :=
  let aft := snapshot e in
  let bef := match lastSnapshot e with Some s => s | None => aft end in
  let cmd := mkCmd bef aft false in
  let '(h', e1) := HistoryManager.execute cmd_execute cmd (historyManager e) e in
  set_lastSnapshot (Some aft) (set_history h' e1).

(** [undo()] / [redo()]; [None] when the history manager throws. *)
Definition undo (e : Editor) : option Editor :=
  match HistoryManager.undo cmd_undo (historyManager e) e with
  | Some (h', e1) => Some (set_history h' e1)
  | None => None
  end.
Definition redo (e : Editor) : option Editor :=
  match HistoryManager.redo cmd_execute (historyManager e) e with
  | Some (h', e1) => Some (set_history h' e1)
  | None => None
  end.

Definition canUndo (e : Editor) : bool := HistoryManager.canUndo (historyManager e).
Definition canRedo (e : Editor) : bool := HistoryManager.canRedo (historyManager e).

(** ** Transforms *)

(** The continuation of a promise that is already resolved. *)
Definition resolved (r : outcome) (e : Editor) : Editor * outcome := (e, Fulfilled).

(** The [.then] handler of [_scaleImageImpl]: snaps the image to the
    target scale, clears [isAnimating] and records a snapshot.  If the
    image was dropped meanwhile, [this.originalImage.set] throws and the
    [.catch] handler clears [isAnimating]. *)
Definition scaleDone (targetAbs : Q) (e : Editor) : Editor :=
  match originalImage e with
  | None => set_isAnimating false e
  | Some img =>
      let img' := mkImage (img_width img) (img_height img) (img_element img)
                    targetAbs (img_angle img) in
      saveState (set_isAnimating false (set_image (Some img') e))
  end.

(** [_scaleImageImpl(factor)]: the synchronous part and the continuation
    of the promise it returns.  The animation promises only resolve; a
    [Rejected] settlement stands for an exception in the [.then] handler,
    caught by the [.catch] handler. *)
Definition scaleImageImpl (factor : Q) (e : Editor)
  : Editor * (outcome -> Editor -> Editor * outcome) :=
  match originalImage e with
  | None => (e, resolved)
  | Some _ =>
      if isAnimating e then (e, resolved) else
      let factor' := js_max (minScale (options e)) (js_min (maxScale (options e)) factor) in
      let e1 := set_isAnimating true (set_currentScale factor' e) in
      let targetAbs := baseImageScale e1 * factor' in
      (e1, fun r e2 => match r with
                       | Fulfilled => (scaleDone targetAbs e2, Fulfilled)
                       | Rejected => (set_isAnimating false e2, Fulfilled)
                       end)
  end.

(** The [.then] handler of [_rotateImageImpl]. *)
Definition rotateDone (degrees : Q) (e : Editor) : Editor :=
  match originalImage e with
  | None => set_isAnimating false e
  | Some img =>
      let img' := mkImage (img_width img) (img_height img) (img_element img)
                    (img_scale img) degrees in
      saveState (set_isAnimating false (set_image (Some img') e))
  end.

(** [_rotateImageImpl(degrees)]; the [isNaN] guard has no counterpart
    since the model's numbers are never NaN. *)
Definition rotateImageImpl (degrees : Q) (e : Editor)
  : Editor * (outcome -> Editor -> Editor * outcome) :=
  match originalImage e with
  | None => (e, resolved)
  | Some _ =>
      if isAnimating e then (e, resolved) else
      let e1 := set_isAnimating true (set_currentRotation degrees e) in
      (e1, fun r e2 => match r with
                       | Fulfilled => (rotateDone degrees e2, Fulfilled)
                       | Rejected => (set_isAnimating false e2, Fulfilled)
                       end)
  end.

(** The operations [scaleImage] and [rotateImage] put on [animQueue]. *)
Inductive Job := ScaleJob (factor : Q) | RotateJob (degrees : Q).

Definition runJob (j : Job) (e : Editor) : Editor * (outcome -> Editor -> Editor * outcome) :=
  match j with
  | ScaleJob f => scaleImageImpl f e
  | RotateJob d => rotateImageImpl d e
  end.

(** The editor together with its [animQueue]. *)
Definition Queued := AnimationQueue.t Editor Job.

(** [scaleImage(factor)] / [rotateImage(deg)] from caller [i]. *)
Definition scaleImage (i : nat) (factor : Q) (s : Queued) : Queued :=
  AnimationQueue.add runJob i (ScaleJob factor) s.
Definition rotateImage (i : nat) (deg : Q) (s : Queued) : Queued :=
  AnimationQueue.add runJob i (RotateJob deg) s.

(** One queued operation run to its end on an idle queue, its animation
    completing normally. *)
Definition runToEnd (j : Job) (e : Editor) : Editor :=
  let '(e1, k) := runJob j e in fst (k Fulfilled e1).

(** [reset()]: [scaleImage(1)], then [rotateImage(0)], then [saveState()],
    each step starting once the previous one has resolved. *)
Definition reset (e : Editor) : Editor :=
  match originalImage e with
  | None => e
  | Some _ => saveState (runToEnd (RotateJob 0) (runToEnd (ScaleJob 1) e))
  end.

(** ** Masks *)

(** The numeric fields of an [addMask] config (numbers only; [None] is an
    absent property).  The shape is the default ['rect']. *)
Record MaskConfig := mkConfig {
  cfg_left : option Q;
  cfg_top : option Q;
  cfg_width : option Q;
  cfg_height : option Q;
  cfg_color : option string;
  cfg_alpha : option Q;
  cfg_gap : option Q;
  cfg_selectable : option bool
}.

Definition no_config : MaskConfig := mkConfig None None None None None None None None.

Definition value_or {A} (v : option A) (d : A) : A :=
  match v with Some x => x | None => d end.

(** fabric's [getScaledWidth()] for a mask drawn with [strokeUniform]
    and no skew: the scaled width plus the stroke. *)
Definition getScaledWidth (m : Mask) : Q := m_width m * m_scaleX m + strokeWidth m.

(** Placement of [addMask]: next to [_lastMask] when no [left] is given,
    otherwise the given or default ([firstOffset = 10]) coordinates. *)
Definition placement (cfg : MaskConfig) (prev : option Mask) : Q * Q :=
  let gap := value_or (cfg_gap cfg) 5 in
  match cfg_left cfg, prev with
  | None, Some p => (inject_Z (js_round (m_left p + getScaledWidth p + gap)), m_top p)
  | _, _ => (value_or (cfg_left cfg) 10, value_or (cfg_top cfg) 10)
  end.

(** [addMask(config)] for a rectangle; returns the new mask.  Growing the
    canvas to fit the mask does not affect the state modelled here. *)
Definition addMask (cfg : MaskConfig) (e : Editor) : Editor * Mask :=
  let o := options e in
  let '(left0, top0) := placement cfg (lastMask e) in
  let width := value_or (cfg_width cfg) (defaultMaskWidth o) in
  let height := value_or (cfg_height cfg) (defaultMaskHeight o) in
  let alpha := value_or (cfg_alpha cfg) (1 # 2) in
  let sel := value_or (cfg_selectable cfg) true in
  let id := (maskCounter e + 1)%Z in
  let mask := mkMask id left0 top0 width height 1 alpha
                (value_or (cfg_color cfg) "rgba(0,0,0,0.5)"%string)
                (Some "#ccc"%string) 1 sel (negb (maskRotatable o)) alpha in
  let e1 := set_lastMask (Some mask)
              (set_maskCounter id (set_lastMaskInitial (Some left0) (Some top0) (Some width) e)) in
  let e2 := set_masks (masks e1 ++ [mask]) e1 in
  let e3 := if sel then set_active (Some id) e2 else e2 in
  let e4 := onSelectionChanged (Some id) e3 in
  (saveState e4, mask).

(** [removeSelectedMask()]: removing the active object clears the
    selection ([selection:cleared]). *)
Definition removeSelectedMask (e : Editor) : Editor :=
  match active e with
  | None => e
  | Some id =>
      let e1 := set_masks (filter (fun m => negb (Z.eqb (maskId m) id)) (masks e)) e in
      saveState (discardActiveObject e1)
  end.

(** [removeAllMasks()]: resets the [_lastMaskInitial*] fields; [_lastMask]
    is left as it is. *)
Definition removeAllMasks (e : Editor) : Editor :=
  let e1 := discardActiveObject (set_masks [] e) in
  saveState (set_lastMaskInitial None None None e1).

(** ** Loading *)

(** A raster the code hands to [loadImage] (its pixel size). *)
Record Raster := mkRaster { r_width : Z; r_height : Z }.

(** [loadImage(base64)] up to the call of [fabric.Image.fromURL]: the
    size of the source after the optional downsampling.  [fromURL] calls
    its callback ([loadImageCallback]) once the image has loaded, which
    is a later task of the event loop. *)
Definition loadImageSource (o : Options) (img : Raster) : Raster :=
  let w := inject_Z (r_width img) in
  let h := inject_Z (r_height img) in
  if downsampleOnLoad o
     && (negb (Qle_bool w (downsampleMaxWidth o)) || negb (Qle_bool h (downsampleMaxHeight o)))
  then
    let ratio := js_min (downsampleMaxWidth o / w) (downsampleMaxHeight o / h) in
    mkRaster (js_round (w * ratio)) (js_round (h * ratio))
  else img.

(** The [fromURL] callback of [loadImage] (no container element). *)
Definition loadImageCallback (src : Raster) (e : Editor) : Editor :=
  let o := options e in
  let imgW := inject_Z (r_width src) in
  let imgH := inject_Z (r_height src) in
  let fitScale := js_min (js_min (canvasWidth o / imgW) (canvasHeight o / imgH)) 1 in
  let s := if fitImageToCanvas o then fitScale
           else if expandCanvasToImage o then 1 else fitScale in
  let base := if Qeq_bool s 0 then 1 else s in
  let fimg := mkImage (r_width src) (r_height src) true s 0 in
  let e1 := discardActiveObject e in
  let e2 := set_active None (set_scene (Some fimg) [] e1) in
  let e3 := set_lastMaskInitial None None None e2 in
  set_transform base 1 0 (set_maskCounter 0 e3).

(** ** Export *)

(** The raster [getImageBase64] encodes: the image's own pixels, the
    whole canvas view, or a crop of the canvas view. *)
Inductive Export :=
| ImageData (w h : Z)
| CanvasView (multiplier : Q)
| Cropped (sx sy sw sh : Z).

Definition export_size (x : Export) : option (Z * Z) :=
  match x with
  | ImageData w h => Some (w, h)
  | Cropped _ _ sw sh => Some (sw, sh)
  | CanvasView _ => None
  end.

Inductive result (A : Type) := Ok (a : A) | Err.
Arguments Ok {A}.
Arguments Err {A}.

Record ExportOptions := mkExportOptions {
  exportImageArea : option bool;
  multiplier : option Q
}.

(** [opts.multiplier || this.options.exportMultiplier || 1] *)
Definition js_or (a b : Q) : Q := if Qeq_bool a 0 then b else a.

(** What Mode B sets on every mask before rendering. *)
Definition forceOpaque (m : Mask) : Mask :=
  mkMask (maskId m) (m_left m) (m_top m) (m_width m) (m_height m) (m_scaleX m)
    1 "#000000"%string None 0 false (lockRotation m) (originalAlpha m).

(** [b.obj.set({...})] for one backup entry [b]. *)
Definition restoreFrom (b : Mask) (m : Mask) : Mask :=
  if Z.eqb (maskId m) (maskId b) then
    mkMask (maskId m) (m_left m) (m_top m) (m_width m) (m_height m) (m_scaleX m)
      (opacity b) (fill b) (stroke b) (strokeWidth b) (selectable b) (lockRotation b)
      (originalAlpha m)
  else m.

Definition restoreMasks (backup : list Mask) (ms : list Mask) : list Mask :=
  fold_left (fun acc b => map (restoreFrom b) acc) backup ms.

Section ExportOps.
(** fabric's [getBoundingRect(true, true)] of the image (left, top,
    width, height), an external geometry query. *)
Variable boundingRect : FImage -> Q * Q * Q * Q.

(** [getImageBase64(opts)]; [crop] is how the promise that re-encodes
    and crops the canvas settles. *)
Definition getImageBase64 (opts : ExportOptions) (crop : outcome) (e : Editor)
  : Editor * result Export :=
  match originalImage e with
  | None => (e, Err)
  | Some img =>
      let area := value_or (exportImageArea opts) (exportImageAreaByDefault (options e)) in
      let mult := js_or (value_or (multiplier opts) 0) (js_or (exportMultiplier (options e)) 1) in
      if negb area then
        if img_element img then (e, Ok (ImageData (img_width img) (img_height img)))
        else (e, Ok (CanvasView mult))
      else
        let backup := masks e in
        let e1 := discardActiveObject e in
        let e2 := set_masks (map forceOpaque (masks e1)) e1 in
        let '(l, t, w, h) := boundingRect img in
        let sx := Z.max 0 (js_round l) in
        let sy := Z.max 0 (js_round t) in
        let sw := Z.max 1 (js_round w) in
        let sh := Z.max 1 (js_round h) in
        match crop with
        | Rejected => (e2, Err)
        | Fulfilled =>
            let out := Cropped (js_round (inject_Z sx * mult)) (js_round (inject_Z sy * mult))
                         (js_round (inject_Z sw * mult)) (js_round (inject_Z sh * mult)) in
            (set_masks (restoreMasks backup (masks e2)) e2, Ok out)
        end
  end.

(** [merge()] up to the settlement of its promise.  The second component
    is the [fromURL] callback still pending when the promise resolves
    (the size of the image it will install). *)
Definition merge (crop : outcome) (e : Editor) : Editor * option Raster :=
  match originalImage e with
  | None => (e, None)
  | Some _ =>
      match masks e with
      | [] => (e, None)
      | _ :: _ =>
          let e1 := discardActiveObject e in
          match getImageBase64 (mkExportOptions (Some true) (Some (exportMultiplier (options e1))))
                  crop e1 with
          | (e2, Err) => (e2, None)
          | (e2, Ok out) =>
              let e3 := removeAllMasks e2 in
              let sz := match export_size out with Some (w, h) => mkRaster w h | None => mkRaster 1 1 end in
              let src := loadImageSource (options e3) sz in
              (saveState e3, Some src)
          end
      end
  end.

End ExportOps.

(** ** Spec-side notions *)

(** The spec's [clamp(f, minScale, maxScale)], i.e.
    [max(minScale, min(maxScale, f))]. *)
Definition spec_clamp (lo hi f : Q) : Q := Qmax lo (Qmin hi f).

(** The scale the spec expects once the operations [jobs] have run in
    submission order, starting from the scale [init]: each scale
    operation sets its clamped target, rotations leave the scale alone. *)
Definition final_scale (o : Options) (jobs : list Job) (init : Q) : Q :=
  fold_left (fun acc j => match j with
                          | ScaleJob f => spec_clamp (minScale o) (maxScale o) f
                          | RotateJob _ => acc
                          end) jobs init.

(** What the editor's state satisfies along a run of [animQueue] that
    starts with an image loaded and no animation: the image stays, the
    [isAnimating] flag is set exactly while an operation that started its
    animation is in flight, and [currentScale] is the one the scale
    operations started so far determine. *)
Definition QueueInv (o : Options) (init : Q) (s : Queued) : Prop :=
  originalImage (AnimationQueue.env s) <> None /\
  options (AnimationQueue.env s) = o /\
  (AnimationQueue.inflight s = None -> isAnimating (AnimationQueue.env s) = false) /\
  (forall i k, AnimationQueue.inflight s = Some (i, k) ->
     exists j e0, runJob j e0 = (AnimationQueue.env s, k) /\ isAnimating e0 = false /\
                  originalImage e0 <> None /\ options e0 = o) /\
  (currentScale (AnimationQueue.env s)
     == final_scale o (map snd (AnimationQueue.started (AnimationQueue.log s))) init).

(** A concrete editor for the examples below: default options and a
    1000x800 raster loaded (the [fromURL] callback has run). *)
Definition example_editor : Editor :=
  loadImageCallback (mkRaster 1000 800) (create default_options).

(** A bounding rectangle for an unrotated image at the canvas origin. *)
Definition example_boundingRect (i : FImage) : Q * Q * Q * Q :=
  (0, 0, inject_Z (img_width i), inject_Z (img_height i)).

(** The example editor with one mask, scaled to 2 and rotated by 90. *)
Definition example_transformed : Editor :=
  runToEnd (RotateJob 90) (runToEnd (ScaleJob 2) (fst (addMask no_config example_editor))).

(** The example editor with one mask, scaled to 2. *)
Definition example_scaled : Editor :=
  runToEnd (ScaleJob 2) (fst (addMask no_config example_editor)).

(** ** Notions for the history claims *)

(** The number of entries in the undo/redo history. *)
Definition hist_len (e : Editor) : nat :=
  length (HistoryManager.history (historyManager e)).

(** The bookkeeping of [HistoryManager.execute(command)] on its own: the
    redo tail cut off, [command] appended, and the oldest entry dropped
    when the history then holds more than [maxSize] entries. *)
Definition push (c : Cmd) (h : HistoryManager.t Cmd) : HistoryManager.t Cmd :=
  fst (HistoryManager.execute (fun c (u : unit) => (u, c)) c h tt).

(** Going from [e] to [e'] recorded exactly [n] history entries: the
    history of [e'] is that of [e] after [n] calls of [execute]. *)
Definition recorded (n : nat) (e e' : Editor) : Prop :=
  exists cs : list Cmd, length cs = n /\
    historyManager e' = fold_left (fun h c => push c h) cs (historyManager e).

(** The history cursor is valid and the history can hold an entry. *)
Definition history_ok (e : Editor) : Prop :=
  HistoryManager.cursor_ok (historyManager e) /\
  (1 <= HistoryManager.maxSize (historyManager e))%Z.

(** An [undo()] right after [e'] reloads the scene [s] (image and masks)
    and leaves [currentScale] and [currentRotation] as they are. *)
Definition undo_reloads (s : Snapshot) (e' : Editor) : Prop :=
  exists e'', undo e' = Some e'' /\ snapshot e'' = s /\
              currentScale e'' = currentScale e' /\ currentRotation e'' = currentRotation e'.

(** The snapshot the previous [saveState] recorded ([_lastSnapshot] of
    [e]), or the scene of [e'] when there is none. *)
Definition previous_snapshot (e e' : Editor) : Snapshot :=
  match lastSnapshot e with Some s => s | None => snapshot e' end.

(** The call from [e] to [e'] recorded one history entry, and an undo
    right after reloads the snapshot the previous [saveState] recorded. *)
Definition recorded_once (e e' : Editor) : Prop :=
  recorded 1 e e' /\ (history_ok e -> undo_reloads (previous_snapshot e e') e').

(** ** Notions for the mask-id claims *)

(** The ids of the live masks, in canvas order. *)
Definition live_ids (e : Editor) : list Z := map maskId (masks e).

(** Live ids are distinct and at most [maskCounter]; masks only live
    next to an image. *)
Definition ids_ok (e : Editor) : Prop :=
  NoDup (live_ids e) /\ Forall (fun i => (i <= maskCounter e)%Z) (live_ids e) /\
  (originalImage e = None -> masks e = []).

(** A recorded scene: distinct mask ids, and no mask without an image. *)
Definition snap_ok (s : Snapshot) : Prop :=
  NoDup (map maskId (snap_masks s)) /\ (snap_image s = None -> snap_masks s = []).

(** Every snapshot the history or [_lastSnapshot] holds is one. *)
Definition hist_ok (e : Editor) : Prop :=
  Forall (fun c => snap_ok (before c) /\ snap_ok (after c))
         (HistoryManager.history (historyManager e)) /\
  (forall s, lastSnapshot e = Some s -> snap_ok s).

(** The public operations of the editor, run to their end, with masks
    added only while an image is loaded. *)
Inductive editor_step : Editor -> Editor -> Prop :=
| step_addMask : forall cfg e, originalImage e <> None -> editor_step e (fst (addMask cfg e))
| step_removeSelectedMask : forall e, editor_step e (removeSelectedMask e)
| step_removeAllMasks : forall e, editor_step e (removeAllMasks e)
| step_loadImage : forall src e, editor_step e (loadImageCallback src e)
| step_transform : forall j e, editor_step e (runToEnd j e)
| step_reset : forall e, editor_step e (reset e)
| step_merge : forall br crop e, editor_step e (fst (merge br crop e))
| step_undo : forall e e', undo e = Some e' -> editor_step e e'
| step_redo : forall e e', redo e = Some e' -> editor_step e e'.

(** Editors reachable from a fresh one. *)
Inductive editor_reachable (o : Options) : Editor -> Prop :=
| reach_new : editor_reachable o (create o)
| reach_step : forall e e', editor_reachable o e -> editor_step e e' -> editor_reachable o e'.

(** Two masks added to the example editor. *)
Definition example_two_masks : Editor :=
  fst (addMask no_config (fst (addMask no_config example_editor))).

(** The example editor scaled to 2, then another image loaded (the load
    is not recorded in the history). *)
Definition example_reloaded : Editor :=
  loadImageCallback (mkRaster 640 480) (runToEnd (ScaleJob 2) example_editor).

End ImageEditor.

(** * The rest of the editor: canvas sizing, image layout, downsampling
    bounds, export file types, the controls, hover styles and buttons *)

Module EditorExtras.
Import ImageEditor.
Open Scope Q_scope.

(** [_setCanvasSizeInt(w, h)]: [Math.max(1, Math.round(Number(w) || 1))]
    for each side (a zero size falls back to 1; no NaN in the model). *)
Definition setCanvasSizeInt (w h : Q) : Z * Z :=
  (Z.max 1 (js_round (js_or w 1)), Z.max 1 (js_round (js_or h 1))).

(** [Math.ceil(this.containerEl.clientWidth || 0)] and the height, or
    [0] without a container element. *)
Definition containerCeil (container : option (Q * Q)) : Z * Z :=
  match container with
  | Some (cw, ch) => (Qceiling (js_or cw 0), Qceiling (js_or ch 0))
  | None => (0%Z, 0%Z)
  end.

(** [_updateCanvasSizeToImageBounds()]: the size given to
    [_setCanvasSizeInt], or [None] when there is no image (the call
    returns early).  [boundingRect] is fabric's [getBoundingRect(true,
    true)] of the image (left, top, width, height). *)
Definition updateCanvasSizeToImageBounds (boundingRect : FImage -> Q * Q * Q * Q)
  (container : option (Q * Q)) (e : Editor) : option (Z * Z) :=
  match originalImage e with
  | None => None
  | Some img =>
      let '(_, _, bw, bh) := boundingRect img in
      let '(cW, cH) := containerCeil container in
      if (0 <? cW)%Z && (0 <? cH)%Z && Qle_bool bw (inject_Z cW) && Qle_bool bh (inject_Z cH)
      then Some (setCanvasSizeInt (inject_Z cW) (inject_Z cH))
      else Some (setCanvasSizeInt (inject_Z (Z.max cW (Qfloor bw)))
                                  (inject_Z (Z.max cH (Qfloor bh))))
  end.

(** Where the [fromURL] callback of [loadImage] puts the image: the
    canvas size, the image's [left] and [top], the scale it applies and
    [baseImageScale]. *)
Record Layout := mkLayout {
  lay_canvas : Z * Z;
  lay_left : Q;
  lay_top : Q;
  lay_scale : Q;
  lay_base : Q
}.

(** The fit-to-canvas and the centring branches (the same code), computed
    in exact arithmetic. JS computes the quotients, products and
    differences in doubles, so [left], [top] and the scale may differ from
    these values by rounding errors. *)
Definition fitLayout (cw ch imgW imgH : Q) : Layout :=
  let fitScale := js_min (js_min (cw / imgW) (ch / imgH)) 1 in
  mkLayout (setCanvasSizeInt cw ch) ((cw - imgW * fitScale) / 2) ((ch - imgH * fitScale) / 2)
    fitScale (js_or fitScale 1).

(** The layout part of the [fromURL] callback for an image of
    [imgW] x [imgH] pixels; [container] is the container element's
    [clientWidth] and [clientHeight], if there is one. *)
Definition loadImageLayout (o : Options) (container : option (Q * Q)) (imgW imgH : Q) : Layout :=
  let minW := match container with
              | Some (cw, _) => inject_Z (Qfloor (js_or cw (canvasWidth o)))
              | None => canvasWidth o
              end in
  let minH := match container with
              | Some (_, ch) => inject_Z (Qfloor (js_or ch (canvasHeight o)))
              | None => canvasHeight o
              end in
  if fitImageToCanvas o then
    fitLayout (js_max (canvasWidth o) minW) (js_max (canvasHeight o) minH) imgW imgH
  else if expandCanvasToImage o then
    let cw := js_max minW (inject_Z (Qfloor imgW)) in
    let ch := js_max minH (inject_Z (Qfloor imgH)) in
    mkLayout (setCanvasSizeInt cw ch) 0 0 1 1
  else
    fitLayout (js_max (canvasWidth o) minW) (js_max (canvasHeight o) minH) imgW imgH.

(** ** [exportImageFile]: the file type *)

Open Scope string_scope.

(** [String.prototype.toLowerCase] on ASCII text. *)
Definition lower_ascii (c : ascii) : ascii :=
  let n := nat_of_ascii c in
  if (65 <=? n)%nat && (n <=? 90)%nat then ascii_of_nat (n + 32) else c.

Fixpoint toLowerCase (s : string) : string :=
  match s with
  | EmptyString => EmptyString
  | String c r => String (lower_ascii c) (toLowerCase r)
  end.

Fixpoint is_ascii (s : string) : bool :=
  match s with
  | EmptyString => true
  | String c r => (nat_of_ascii c <? 128)%nat && is_ascii r
  end.

(** A property value read off [typeMapping]: a string, or an object
    inherited from [Object.prototype] with the text a template literal
    turns it into. *)
Inductive JSValue := JStr (s : string) | JObj (shown : string).

Definition js_text (v : JSValue) : string :=
  match v with JStr s => s | JObj r => r end.

(** [typeMapping[key]]: the object literal's own keys, then the two
    lower-case names [Object.prototype] provides; [None] is [undefined]. *)
Definition typeMapping (key : string) : option JSValue :=
  if String.eqb key "jpeg" then Some (JStr "jpeg")
  else if String.eqb key "jpg" then Some (JStr "jpeg")
  else if String.eqb key "image/jpeg" then Some (JStr "jpeg")
  else if String.eqb key "png" then Some (JStr "png")
  else if String.eqb key "image/png" then Some (JStr "png")
  else if String.eqb key "webp" then Some (JStr "webp")
  else if String.eqb key "image/webp" then Some (JStr "webp")
  else if String.eqb key "constructor" then Some (JObj "function Object() { [native code] }")
  else if String.eqb key "__proto__" then Some (JObj "[object Object]")
  else None.

(** [typeMapping[String(fileType).toLowerCase()] || 'jpeg'] *)
Definition safeFileType (fileType : string) : JSValue :=
  match typeMapping (toLowerCase fileType) with
  | Some v => v
  | None => JStr "jpeg"
  end.

(** [mime = `image/${safeFileType}`], the type passed to [new File]. *)
Definition exportMime (fileType : string) : string :=
  "image/" ++ js_text (safeFileType fileType).

(** Every character is in U+0020..U+007E. *)
Fixpoint printable_ascii (s : string) : bool :=
  match s with
  | EmptyString => true
  | String c r =>
      (32 <=? nat_of_ascii c)%nat && (nat_of_ascii c <=? 126)%nat && printable_ascii r
  end.

(** The [type] attribute of [new File(bits, name, { type: t })]: the File
    API lower-cases [t] when all its characters are in U+0020..U+007E, and
    uses the empty string otherwise. *)
Definition fileTypeOf (t : string) : string :=
  if printable_ascii t then toLowerCase t else "".

(** The [type] of the [File] that [exportImageFile] returns. *)
Definition exportFileType (fileType : string) : string := fileTypeOf (exportMime fileType).

Close Scope string_scope.

(** ** [_updateUI()]: which controls are disabled *)

Record Controls := mkControls {
  zoomInBtn : bool;
  zoomOutBtn : bool;
  addMaskBtn : bool;
  removeMaskBtn : bool;
  removeAllMasksBtn : bool;
  mergeBtn : bool;
  downloadBtn : bool;
  resetBtn : bool;
  undoBtn : bool;
  redoBtn : bool
}.

(** The [disabled] flag [_updateUI] gives each control. *)
Definition updateUI (e : Editor) : Controls :=
  let hasImg := match originalImage e with Some _ => true | None => false end in
  let ms := if hasImg then filter (fun m => negb (Z.eqb (maskId m) 0)) (masks e) else [] in
  let hasMasks := (0 <? length ms)%nat in
  let hasSelectedMask := match active e with Some id => negb (Z.eqb id 0) | None => false end in
  let isDefault := Qeq_bool (currentScale e) 1 && Qeq_bool (currentRotation e) 0 in
  let anim := isAnimating e in
  mkControls
    (negb hasImg || anim || Qle_bool (maxScale (options e)) (currentScale e))
    (negb hasImg || anim || Qle_bool (currentScale e) (minScale (options e)))
    (negb hasImg || anim)
    (negb hasSelectedMask || anim)
    (negb hasMasks || anim)
    (negb hasImg || negb hasMasks || anim)
    (negb hasImg || anim)
    (negb hasImg || isDefault || anim)
    (negb hasImg || anim || negb (canUndo e))
    (negb hasImg || anim || negb (canRedo e)).

Definition all_disabled (c : Controls) : bool :=
  zoomInBtn c && zoomOutBtn c && addMaskBtn c && removeMaskBtn c && removeAllMasksBtn c &&
  mergeBtn c && downloadBtn c && resetBtn c && undoBtn c && redoBtn c.

(** ** Rounding to a double

    JS numbers are IEEE-754 binary64 values; the model computes with exact
    rationals, and [dbl] rounds an exact result to the nearest double (ties
    to even), as every JS addition and subtraction does. Overflow to
    infinity is not modelled. [pow2_ge a d k] decides [a / d >= 2^k]. *)
Definition pow2_ge (a d k : Z) : bool :=
  if (0 <=? k)%Z then (d * 2 ^ k <=? a)%Z else (d <=? a * 2 ^ (- k))%Z.

(** [N / D] rounded to the nearest integer, ties to even ([0 < D]). *)
Definition round_ne (N D : Z) : Z :=
  let q := (N / D)%Z in
  let r := (N mod D)%Z in
  match Z.compare (2 * r) D with
  | Lt => q
  | Gt => (q + 1)%Z
  | Eq => if Z.even q then q else (q + 1)%Z
  end.

(** The double nearest to [x]: [|x|] lies in [[2^L, 2^(L+1))], its last
    significant bit has weight [2^e] with [e = max(-1074, L - 52)]
    (53-bit significand, subnormals below [2^-1022]). *)
Definition dbl (x : Q) : Q :=
  let y := Qred x in
  let n := Qnum y in
  let d := Zpos (Qden y) in
  let a := Z.abs n in
  if (a =? 0)%Z then 0 else
  let L0 := (Z.log2 a - Z.log2 d)%Z in
  let L := if pow2_ge a d L0 then L0 else (L0 - 1)%Z in
  let e := Z.max (-1074) (L - 52) in
  let v := if (0 <=? e)%Z then inject_Z (round_ne a (d * 2 ^ e) * 2 ^ e)
           else Qmake (round_ne (a * 2 ^ (- e)) d) (Z.to_pos (2 ^ (- e))) in
  if (n <? 0)%Z then - v else v.

(** [x] is [m / 2^k] with [|m| < 2^53] and [k <= 1074]: a double, kept
    exactly by [dbl]. *)
Definition small_dyadic (x : Q) : bool :=
  let y := Qred x in
  (Z.abs (Qnum y) <? 2 ^ 53)%Z &&
  (Zpos (Qden y) =? 2 ^ Z.log2 (Zpos (Qden y)))%Z &&
  (Z.log2 (Zpos (Qden y)) <=? 1074)%Z.

(** ** The buttons bound by [_bindEvents] *)

(** The rotate buttons' step: the input's [parseFloat] value when the
    input exists and parses ([None] otherwise), else [rotationStep]. *)
Definition rotationStepFrom (input : option Q) (rotationStep : Q) : Q :=
  value_or input rotationStep.

(** The rotate buttons: [rotateImage(this.currentRotation -/+ step)], the
    difference or sum computed in doubles. *)
Definition rotateLeftJob (input : option Q) (rotationStep : Q) (e : Editor) : Job :=
  RotateJob (dbl (currentRotation e - rotationStepFrom input rotationStep)).
Definition rotateRightJob (input : option Q) (rotationStep : Q) (e : Editor) : Job :=
  RotateJob (dbl (currentRotation e + rotationStepFrom input rotationStep)).

(** The zoom buttons: [scaleImage(currentScale +/- scaleStep)], the sum or
    difference computed in doubles. *)
Definition zoomInJob (scaleStep : Q) (e : Editor) : Job :=
  ScaleJob (dbl (currentScale e + scaleStep)).
Definition zoomOutJob (scaleStep : Q) (e : Editor) : Job :=
  ScaleJob (dbl (currentScale e - scaleStep)).

(** ** Hover handlers of a mask *)

(** [hoverStyle]: orange stroke of width 2, opacity
    [Math.min(originalAlpha + 0.2, 1)]. *)
Definition hoverStyle (m : Mask) : Mask :=
  mkMask (maskId m) (m_left m) (m_top m) (m_width m) (m_height m) (m_scaleX m)
    (js_min (originalAlpha m + (1 # 5)) 1) (fill m) (Some "#ff5500"%string) 2
    (selectable m) (lockRotation m) (originalAlpha m).

(** [normalStyle], captured when [addMask] created the mask: its stroke
    ['#ccc'] and stroke width 1 (no [config.styles] in the model) and
    opacity [originalAlpha]. *)
Definition normalStyle (m : Mask) : Mask :=
  mkMask (maskId m) (m_left m) (m_top m) (m_width m) (m_height m) (m_scaleX m)
    (originalAlpha m) (fill m) (Some "#ccc"%string) 1
    (selectable m) (lockRotation m) (originalAlpha m).

Definition on_mask (id : Z) (f : Mask -> Mask) (e : Editor) : Editor :=
  set_masks (map (fun m => if Z.eqb (maskId m) id then f m else m) (masks e)) e.

(** The [mouseover] and [mouseout] handlers of the mask [id]. *)
Definition mouseover (id : Z) (e : Editor) : Editor := on_mask id hoverStyle e.
Definition mouseout (id : Z) (e : Editor) : Editor := on_mask id normalStyle e.

(** ** Edits that leave the image in place *)

(** The public calls other than [loadImage], [undo], [redo] and [merge]. *)
Inductive edit_step : Editor -> Editor -> Prop :=
| edit_addMask : forall cfg e, edit_step e (fst (addMask cfg e))
| edit_removeSelectedMask : forall e, edit_step e (removeSelectedMask e)
| edit_removeAllMasks : forall e, edit_step e (removeAllMasks e)
| edit_transform : forall j e, edit_step e (runToEnd j e)
| edit_reset : forall e, edit_step e (reset e)
| edit_export : forall br opts crop e, edit_step e (fst (getImageBase64 br opts crop e)).

Inductive edit_steps : Editor -> Editor -> Prop :=
| edits_refl : forall e, edit_steps e e
| edits_step : forall e e' e'', edit_step e e' -> edit_steps e' e'' -> edit_steps e e''.

(** A mask [x] that [restoreMasks] would restore from the record [m]: the
    fields it restores already hold the recorded values. *)
Definition agrees (m x : Mask) : Prop :=
  maskId x = maskId m /\ m_left x = m_left m /\ m_top x = m_top m /\
  m_width x = m_width m /\ m_height x = m_height m /\ m_scaleX x = m_scaleX m /\
  originalAlpha x = originalAlpha m.

(** The native size and source element of the loaded image. *)
Definition native (e : Editor) : option (Z * Z * bool) :=
  option_map (fun i => (img_width i, img_height i, img_element i)) (originalImage e).

End EditorExtras.

(** * Proofs *)

(** ** HistoryManager *)

Lemma replace_nth_length {A} (l : list A) i x : length (replace_nth l i x) = length l.
Proof.
  revert i; induction l as [|y r IH]; intros [|i]; simpl; auto.
Qed.

Module HistoryManagerFacts.
Import HistoryManager.

Section Facts.
Context {E C : Type}.
Variable cmd_execute : C -> E -> E * C.
Variable cmd_undo : C -> E -> E.

(** The prefix [execute] keeps has [currentIndex + 1] entries. *)
Lemma kept_length (h : t C) :
  cursor_ok h ->
  Z.of_nat (length (if currentIndex h <? Z.of_nat (length (history h)) - 1
                    then slice0 (history h) (currentIndex h + 1)
                    else history h)) = currentIndex h + 1.
Proof.
  unfold cursor_ok, slice0; intros [Hlo Hhi].
  destruct (Z.ltb_spec (currentIndex h) (Z.of_nat (length (history h)) - 1)).
  - rewrite length_firstn, Nat.min_l by lia. lia.
  - lia.
Qed.

Lemma execute_shape (c : C) (h : t C) (e : E) :
  cursor_ok h ->
  let h' := fst (execute cmd_execute c h e) in
  maxSize h' = maxSize h /\
  currentIndex h' = Z.of_nat (length (history h')) - 1 /\
  (currentIndex h + 2 > maxSize h -> currentIndex h' = currentIndex h) /\
  (currentIndex h + 2 <= maxSize h -> currentIndex h' = currentIndex h + 1).
Proof.
  intros Hok. pose proof (kept_length h Hok) as Hk. unfold cursor_ok in Hok.
  unfold execute. destruct (cmd_execute c e) as [e1 c1]. simpl.
  set (kept := if currentIndex h <? Z.of_nat (length (history h)) - 1
               then slice0 (history h) (currentIndex h + 1) else history h) in *.
  assert (Hl : Z.of_nat (length (kept ++ [c1])) = currentIndex h + 2)
    by (rewrite length_app; simpl; lia).
  destruct (Z.gtb_spec (Z.of_nat (length (kept ++ [c1]))) (maxSize h)); simpl.
  - destruct (kept ++ [c1]) as [|x r] eqn:Hkr; simpl in *; [lia|].
    repeat split; try lia.
  - repeat split; lia.
Qed.

Lemma execute_cursor_ok (c : C) (h : t C) (e : E) :
  cursor_ok h -> cursor_ok (fst (execute cmd_execute c h e)).
Proof.
  intros Hok. destruct (execute_shape c h e Hok) as (_ & Hci & Hev & Hno).
  unfold cursor_ok in *. lia.
Qed.

Lemma undo_cursor_ok (h h' : t C) (e e' : E) :
  cursor_ok h -> undo cmd_undo h e = Some (h', e') -> cursor_ok h'.
Proof.
  unfold undo, cursor_ok. intros Hok Hu.
  destruct (Z.leb_spec 0 (currentIndex h)).
  - destruct (js_index (history h) (currentIndex h)); inversion Hu; subst; simpl; lia.
  - inversion Hu; subst; lia.
Qed.

Lemma redo_cursor_ok (h h' : t C) (e e' : E) :
  cursor_ok h -> redo cmd_execute h e = Some (h', e') -> cursor_ok h'.
Proof.
  unfold redo, cursor_ok. intros Hok Hr.
  destruct (Z.ltb_spec (currentIndex h) (Z.of_nat (length (history h)) - 1)).
  - destruct (js_index (history h) (currentIndex h + 1)); [|discriminate].
    destruct (cmd_execute c e). inversion Hr; subst; simpl.
    rewrite replace_nth_length. lia.
  - inversion Hr; subst; lia.
Qed.

Lemma reachable_cursor_ok (h : t C) (e : E) :
  reachable cmd_execute cmd_undo h e -> cursor_ok h.
Proof.
  induction 1.
  - unfold cursor_ok, create; simpl; lia.
  - now apply execute_cursor_ok.
  - eapply undo_cursor_ok; eauto.
  - eapply redo_cursor_ok; eauto.
Qed.

Lemma redo_noop (h : t C) (e : E) :
  canRedo h = false -> redo cmd_execute h e = Some (h, e).
Proof. unfold canRedo, redo. intros ->. reflexivity. Qed.

End Facts.
End HistoryManagerFacts.

(** C4: in every reachable state of a [HistoryManager], once [execute]
    returns, [canRedo()] is false and [redo()] changes nothing: whatever
    had been undone is discarded.  This includes the case where the new
    entry overflows the capacity and the oldest entry is evicted: then the
    cursor stays where it was (and otherwise it advances by one), still
    pointing at the newest entry. *)
Theorem execute_discards_redo {E C : Type} (cmd_execute : C -> E -> E * C)
  (cmd_undo : C -> E -> E) (h : HistoryManager.t C) (e : E) (c : C) :
  HistoryManager.reachable cmd_execute cmd_undo h e ->
  let '(h', e') := HistoryManager.execute cmd_execute c h e in
  HistoryManager.canRedo h' = false /\
  HistoryManager.redo cmd_execute h' e' = Some (h', e') /\
  (HistoryManager.currentIndex h + 2 > HistoryManager.maxSize h ->
     HistoryManager.currentIndex h' = HistoryManager.currentIndex h) /\
  (HistoryManager.currentIndex h + 2 <= HistoryManager.maxSize h ->
     HistoryManager.currentIndex h' = HistoryManager.currentIndex h + 1).
Proof.
  intros Hr. pose proof (HistoryManagerFacts.reachable_cursor_ok _ _ _ _ Hr) as Hok.
  pose proof (HistoryManagerFacts.execute_shape cmd_execute c h e Hok) as (_ & Hci & Hev & Hno).
  destruct (HistoryManager.execute cmd_execute c h e) as [h' e'] eqn:Hx. simpl in *.
  assert (Hc : HistoryManager.canRedo h' = false).
  { unfold HistoryManager.canRedo. apply Z.ltb_ge. lia. }
  repeat split; auto.
  now apply HistoryManagerFacts.redo_noop.
Qed.

Lemma execute_discards_redo_witness :
  HistoryManager.reachable (fun (c : nat) (e : unit) => (e, c)) (fun _ e => e)
    (HistoryManager.mk [7%nat; 8%nat] 0 3) tt /\
  HistoryManager.canRedo
    (fst (HistoryManager.execute (fun (c : nat) (e : unit) => (e, c)) 9%nat
            (HistoryManager.mk [7%nat; 8%nat] 0 3) tt)) = false.
Proof.
  set (ce := fun (c : nat) (e : unit) => (e, c)).
  set (cu := fun (_ : nat) (e : unit) => e).
  assert (Hr : HistoryManager.reachable ce cu (HistoryManager.mk [7%nat; 8%nat] 0 3) tt).
  { apply (HistoryManager.reach_undo ce cu
             (fst (HistoryManager.execute ce 8%nat
                     (fst (HistoryManager.execute ce 7%nat (HistoryManager.create 3) tt)) tt)) tt).
    - refine (HistoryManager.reach_execute ce cu
                (fst (HistoryManager.execute ce 7%nat (HistoryManager.create 3) tt)) tt 8%nat _).
      refine (HistoryManager.reach_execute ce cu (HistoryManager.create 3) tt 7%nat _).
      apply HistoryManager.reach_create. lia.
    - reflexivity. }
  split; [exact Hr|].
  exact (proj1 (execute_discards_redo ce cu _ tt 9%nat Hr)).
Defined.

(** ** AnimationQueue *)

Module AnimationQueueFacts.
Import AnimationQueue.

Section Facts.
Context {E J : Type}.
Variable start : J -> E -> E * (outcome -> E -> E * outcome).

Lemma started_app (l1 l2 : list (event J)) : started (l1 ++ l2) = started l1 ++ started l2.
Proof. unfold started. now rewrite flat_map_app. Qed.

Lemma added_app (xs ys : list (input J)) : added (xs ++ ys) = added xs ++ added ys.
Proof. unfold added. now rewrite flat_map_app. Qed.

Lemma completed_app (ps qs : list (nat * J * outcome)) :
  completed (ps ++ qs) = completed ps ++ completed qs.
Proof. unfold completed. now rewrite flat_map_app. Qed.

Lemma Inv_nil (e : E) : @Inv E J [] (create e).
Proof.
  unfold Inv, create; simpl. repeat split; auto.
  exists [], None. simpl. auto.
Qed.

Lemma Inv_step (xs : list (input J)) (s : t E J) (x : input J) :
  Inv xs s -> Inv (xs ++ [x]) (step start s x).
Proof.
  intros (HA & (ps & cur & HB & Hcur) & HR & HC).
  unfold Inv. rewrite added_app. destruct x as [i j | r]; simpl.
  - (* add *)
    unfold add; simpl. destruct (inflight s) as [[i0 k0]|] eqn:Hin; rewrite HR; simpl.
    + unfold Inv; simpl. repeat split; auto.
      * rewrite app_assoc, HA. reflexivity.
      * exists ps, cur. auto.
      * discriminate.
    + rewrite (HC eq_refl) in *. simpl. unfold processQueue; simpl.
      destruct (start j (env s)) as [e1 k] eqn:Hs. unfold Inv; simpl.
      destruct cur as [[ic jc]|]; simpl in Hcur; try discriminate.
      repeat split; auto.
      * rewrite started_app, <- HA. simpl. rewrite !app_nil_r. reflexivity.
      * exists ps, (Some (i, j)). rewrite HB. simpl. rewrite app_nil_r. auto.
  - (* settle *)
    unfold settle. destruct (inflight s) as [[i k]|] eqn:Hin.
    + destruct cur as [[ic jc]|]; simpl in Hcur; try discriminate.
      injection Hcur as ->.
      destruct (k r (env s)) as [e1 o] eqn:Hk. unfold processQueue; simpl.
      assert (Hlog : log s ++ [Deliver i o] = completed (ps ++ [(i, jc, o)])).
      { rewrite HB, completed_app. simpl. rewrite <- app_assoc. reflexivity. }
      destruct (queue s) as [|[i1 j1] rest] eqn:Hq.
      * simpl. repeat split; auto.
        -- rewrite started_app, <- HA. simpl. rewrite !app_nil_r. reflexivity.
        -- exists (ps ++ [(i, jc, o)]), None. rewrite Hlog. simpl.
           rewrite app_nil_r. auto.
      * destruct (start j1 e1) as [e2 k2] eqn:Hs. simpl.
        repeat split; auto.
        -- rewrite !started_app, <- HA. simpl. rewrite !app_nil_r.
           rewrite <- app_assoc. reflexivity.
        -- exists (ps ++ [(i, jc, o)]), (Some (i1, j1)). rewrite Hlog. simpl. auto.
        -- discriminate.
    + simpl. rewrite app_nil_r, Hin. repeat split; auto.
      exists ps, cur. auto.
Qed.

Lemma run_snoc (xs : list (input J)) (x : input J) (s : t E J) :
  run start (xs ++ [x]) s = step start (run start xs s) x.
Proof. unfold run. now rewrite fold_left_app. Qed.

Lemma Inv_run (xs : list (input J)) (e : E) : Inv xs (run start xs (create e)).
Proof.
  induction xs as [|x xs IH] using rev_ind.
  - apply Inv_nil.
  - rewrite run_snoc. now apply Inv_step.
Qed.

End Facts.
End AnimationQueueFacts.

(** ** Editor: frame lemmas *)

Module EditorFacts.
Import ImageEditor.
Open Scope Q_scope.

Lemma hm_execute_snd {E C} (ce : C -> E -> E * C) c h e :
  snd (HistoryManager.execute ce c h e) = fst (ce c e).
Proof.
  unfold HistoryManager.execute. destruct (ce c e) as [e1 c1].
  destruct (_ >? _)%Z; reflexivity.
Qed.

(** [saveState] only touches the history and [_lastSnapshot]. *)
Lemma saveState_eq (e : Editor) :
  saveState e =
  set_lastSnapshot (Some (snapshot e))
    (set_history (fst (HistoryManager.execute cmd_execute
                         (mkCmd (match lastSnapshot e with Some s => s | None => snapshot e end)
                                (snapshot e) false)
                         (historyManager e) e)) e).
Proof.
  unfold saveState.
  pose proof (hm_execute_snd cmd_execute
                (mkCmd (match lastSnapshot e with Some s => s | None => snapshot e end)
                       (snapshot e) false) (historyManager e) e) as Hs.
  destruct (HistoryManager.execute _ _ _ e) as [h' e1]. simpl in Hs. subst e1.
  reflexivity.
Qed.

Ltac save_simpl := rewrite ?saveState_eq; simpl.

Lemma js_min_spec a b : js_min a b == Qmin a b.
Proof.
  unfold js_min. destruct (Qle_bool a b) eqn:H.
  - apply Qle_bool_iff in H. symmetry. now apply Q.min_l.
  - assert (b <= a).
    { apply Qlt_le_weak, Qnot_le_lt. intro H'. apply Qle_bool_iff in H'. congruence. }
    symmetry. now apply Q.min_r.
Qed.

Lemma js_max_spec a b : js_max a b == Qmax a b.
Proof.
  unfold js_max. destruct (Qle_bool a b) eqn:H.
  - apply Qle_bool_iff in H. symmetry. now apply Q.max_r.
  - assert (b <= a).
    { apply Qlt_le_weak, Qnot_le_lt. intro H'. apply Qle_bool_iff in H'. congruence. }
    symmetry. now apply Q.max_l.
Qed.

(** The code's [Math.max(minScale, Math.min(maxScale, factor))] is the
    spec's clamp. *)
Lemma js_clamp_spec lo hi f : js_max lo (js_min hi f) == spec_clamp lo hi f.
Proof. unfold spec_clamp. rewrite js_max_spec, js_min_spec. reflexivity. Qed.

(** Starting a queued operation on an idle editor with an image. *)
Lemma runJob_start j e0 e1 k :
  runJob j e0 = (e1, k) -> isAnimating e0 = false -> originalImage e0 <> None ->
  options e1 = options e0 /\ originalImage e1 = originalImage e0 /\
  currentScale e1 == match j with
                     | ScaleJob f => spec_clamp (minScale (options e0)) (maxScale (options e0)) f
                     | RotateJob _ => currentScale e0
                     end.
Proof.
  intros Hr Ha Hi. destruct (originalImage e0) as [img|] eqn:Himg; [|congruence].
  destruct j as [f|d]; simpl in Hr; unfold scaleImageImpl, rotateImageImpl in Hr;
    rewrite Himg, Ha in Hr; injection Hr as <- <-; simpl; rewrite ?Himg.
  - repeat split; auto. apply js_clamp_spec.
  - repeat split; auto.
Qed.

(** Settling it: the handlers clear [isAnimating] and keep the image,
    the options and [currentScale]. *)
Lemma runJob_settle j e0 e1 k r e2 :
  runJob j e0 = (e1, k) -> isAnimating e0 = false -> originalImage e0 <> None ->
  originalImage e2 <> None ->
  let e3 := fst (k r e2) in
  options e3 = options e2 /\ originalImage e3 <> None /\
  isAnimating e3 = false /\ currentScale e3 = currentScale e2.
Proof.
  intros Hr Ha Hi Hi2. destruct (originalImage e0) as [img|] eqn:Himg; [|congruence].
  destruct (originalImage e2) as [img2|] eqn:Himg2; [|congruence].
  destruct j as [f|d]; simpl in Hr; unfold scaleImageImpl, rotateImageImpl in Hr;
    rewrite Himg, Ha in Hr; injection Hr as <- <-; destruct r; simpl;
    unfold scaleDone, rotateDone; rewrite ?Himg2; save_simpl; repeat split; congruence.
Qed.

Lemma final_scale_snoc o l j init :
  final_scale o (l ++ [j]) init =
  match j with
  | ScaleJob f => spec_clamp (minScale o) (maxScale o) f
  | RotateJob _ => final_scale o l init
  end.
Proof. unfold final_scale. rewrite fold_left_app. destruct j; reflexivity. Qed.

Lemma QueueInv_create (e : Editor) :
  originalImage e <> None -> isAnimating e = false ->
  QueueInv (options e) (currentScale e) (AnimationQueue.create e).
Proof.
  intros Hi Ha. unfold QueueInv, AnimationQueue.create; simpl.
  repeat split; auto; try discriminate; try reflexivity.
Qed.

Lemma QueueInv_step o init xs (s : Queued) x :
  AnimationQueue.Inv xs s -> QueueInv o init s ->
  QueueInv o init (AnimationQueue.step runJob s x).
Proof.
  intros (HA & (ps & cur & HB & Hcur) & HR & HC) (Himg & Hopt & Hidle & Hfl & Hsc).
  destruct x as [i j | r]; simpl.
  - unfold AnimationQueue.add; simpl. rewrite HR.
    destruct (AnimationQueue.inflight s) as [[i0 k0]|] eqn:Hin; simpl.
    + unfold QueueInv; simpl. repeat split; auto.
    + unfold AnimationQueue.processQueue; simpl. rewrite (HC eq_refl). simpl.
      destruct (runJob j (AnimationQueue.env s)) as [e1 k] eqn:Hs.
      destruct (runJob_start j _ e1 k Hs (Hidle eq_refl) Himg) as (Ho & Hi & Hc).
      unfold QueueInv; simpl. repeat split.
      * congruence.
      * congruence.
      * discriminate.
      * intros i1 k1 Heq. injection Heq as <- <-. exists j, (AnimationQueue.env s). auto.
      * rewrite AnimationQueueFacts.started_app, map_app. simpl.
        rewrite final_scale_snoc. destruct j as [f|d].
        -- rewrite Hopt in Hc. exact Hc.
        -- eapply Qeq_trans; [exact Hc | exact Hsc].
  - unfold AnimationQueue.settle. destruct (AnimationQueue.inflight s) as [[i k]|] eqn:Hin.
    + destruct (Hfl i k eq_refl) as (j0 & e0 & Hr0 & Ha0 & Hi0 & Ho0).
      pose proof (runJob_settle j0 e0 _ k r (AnimationQueue.env s) Hr0 Ha0 Hi0 Himg) as H.
      destruct (k r (AnimationQueue.env s)) as [e2 o2] eqn:Hk. simpl in H.
      destruct H as (Ho2 & Hi2 & Ha2 & Hc2).
      unfold AnimationQueue.processQueue; simpl.
      destruct (AnimationQueue.queue s) as [|[i1 j1] rest] eqn:Hq.
      * unfold QueueInv; simpl. repeat split; auto; try congruence.
        -- rewrite AnimationQueueFacts.started_app. simpl. rewrite app_nil_r, Hc2. exact Hsc.
      * destruct (runJob j1 e2) as [e3 k3] eqn:Hs.
        destruct (runJob_start j1 e2 e3 k3 Hs Ha2 Hi2) as (Ho3 & Hi3 & Hc3).
        unfold QueueInv; simpl. repeat split.
        -- congruence.
        -- congruence.
        -- discriminate.
        -- intros i2 k2 Heq. injection Heq as <- <-. exists j1, e2. repeat split; auto.
           congruence.
        -- rewrite !AnimationQueueFacts.started_app, !map_app. simpl.
           rewrite app_nil_r, final_scale_snoc. destruct j1 as [f|d].
           ++ rewrite Ho2, Hopt in Hc3. exact Hc3.
           ++ rewrite Hc2 in Hc3. eapply Qeq_trans; [exact Hc3 | exact Hsc].
    + unfold QueueInv. rewrite Hin. repeat split; auto.
Qed.

Lemma QueueInv_run (e : Editor) xs :
  originalImage e <> None -> isAnimating e = false ->
  QueueInv (options e) (currentScale e) (AnimationQueue.run runJob xs (AnimationQueue.create e)).
Proof.
  intros Hi Ha. induction xs as [|x xs IH] using rev_ind.
  - now apply QueueInv_create.
  - rewrite AnimationQueueFacts.run_snoc. eapply QueueInv_step; [|exact IH].
    apply AnimationQueueFacts.Inv_run.
Qed.

(** Once the queue has drained, the scale is the one the submitted jobs
    give when applied one after the other, in submission order. *)
Lemma drained_scale (e : Editor) xs :
  originalImage e <> None -> isAnimating e = false ->
  AnimationQueue.inflight (AnimationQueue.run runJob xs (AnimationQueue.create e)) = None ->
  currentScale (AnimationQueue.env (AnimationQueue.run runJob xs (AnimationQueue.create e)))
  == final_scale (options e) (map snd (AnimationQueue.added xs)) (currentScale e).
Proof.
  intros Hi Ha Hn.
  destruct (QueueInv_run e xs Hi Ha) as (_ & _ & _ & _ & Hsc).
  destruct (AnimationQueueFacts.Inv_run runJob xs e) as (HA & _ & _ & HC).
  rewrite (HC Hn), app_nil_r in HA. rewrite <- HA. exact Hsc.
Qed.

(** The promise a queued scale or rotate operation hands to its caller
    is always fulfilled: the [.catch] handlers swallow the errors. *)
Lemma runJob_fulfilled j e0 e1 k r e2 :
  runJob j e0 = (e1, k) -> snd (k r e2) = Fulfilled.
Proof.
  intros Hr. destruct j; simpl in Hr;
    [unfold scaleImageImpl in Hr | unfold rotateImageImpl in Hr];
    destruct (originalImage e0); [destruct (isAnimating e0)| |destruct (isAnimating e0)|];
    injection Hr as <- <-; try reflexivity; destruct r; reflexivity.
Qed.

Ltac pair_cases :=
  repeat match goal with
  | |- context [match ?p with (_, _) => _ end] =>
      let a := fresh "a" in let b := fresh "b" in let H := fresh "Hp" in
      destruct p as [a b] eqn:H; cbn -[runJob]
  end.

(** The image [loadImage] installs has a source element and the size of
    the (possibly downsampled) raster. *)
Lemma loadImageCallback_image src e :
  exists sc, originalImage (loadImageCallback src e) =
             Some (mkImage (r_width src) (r_height src) true sc 0).
Proof. eexists. reflexivity. Qed.

Lemma snapshot_loadFromState s e : snapshot (loadFromState s e) = s.
Proof. destruct s as [[img|] ms]; reflexivity. Qed.

(** [saveState] changes nothing but the history and [_lastSnapshot]. *)
Lemma saveState_frame (e : Editor) :
  snapshot (saveState e) = snapshot e /\ originalImage (saveState e) = originalImage e /\
  isAnimating (saveState e) = isAnimating e /\ masks (saveState e) = masks e /\
  maskCounter (saveState e) = maskCounter e /\ currentScale (saveState e) = currentScale e /\
  options (saveState e) = options e /\ lastSnapshot (saveState e) = Some (snapshot e).
Proof. rewrite saveState_eq. repeat split. Qed.

(** [saveState] is one [execute] of the history. *)
Lemma execute_push {E} (ce : Cmd -> E -> E * Cmd) (c : Cmd) h (e : E) :
  fst (HistoryManager.execute ce c h e) = push (snd (ce c e)) h.
Proof.
  unfold push, HistoryManager.execute. destruct (ce c e) as [e1 c1]. simpl.
  destruct (_ >? _)%Z; reflexivity.
Qed.

Lemma saveState_push (x : Editor) :
  historyManager (saveState x) =
  push (mkCmd (previous_snapshot x x) (snapshot x) true) (historyManager x).
Proof. rewrite saveState_eq. simpl. rewrite execute_push. reflexivity. Qed.

(** After an [execute] from a valid cursor, with room for one entry, the
    cursor is on the new entry. *)
Lemma push_ok (c : Cmd) (h : HistoryManager.t Cmd) :
  HistoryManager.cursor_ok h -> (1 <= HistoryManager.maxSize h)%Z ->
  HistoryManager.cursor_ok (push c h) /\
  HistoryManager.maxSize (push c h) = HistoryManager.maxSize h /\
  (0 <= HistoryManager.currentIndex (push c h))%Z /\
  js_index (HistoryManager.history (push c h)) (HistoryManager.currentIndex (push c h)) = Some c.
Proof.
  intros Hok Hms.
  pose proof (HistoryManagerFacts.kept_length h Hok) as Hk.
  unfold HistoryManager.cursor_ok in Hok.
  destruct h as [hist ci ms]. simpl in *.
  unfold push, HistoryManager.execute. simpl.
  set (kept := if (ci <? Z.of_nat (length hist) - 1)%Z then slice0 hist (ci + 1)%Z else hist) in *.
  clearbody kept.
  assert (Hl : Z.of_nat (length (kept ++ [c])) = (ci + 2)%Z) by (rewrite length_app; simpl; lia).
  unfold HistoryManager.cursor_ok, js_index.
  destruct (Z.gtb_spec (Z.of_nat (length (kept ++ [c]))) ms) as [G|G]; simpl.
  - destruct kept as [|k r]; simpl in Hk; [lia|]. simpl.
    rewrite length_app. simpl.
    assert (Hc : (ci <? 0)%Z = false) by (apply Z.ltb_ge; lia). rewrite Hc.
    rewrite nth_error_app2 by lia.
    replace (Z.to_nat ci - length r)%nat with 0%nat by lia.
    repeat split; try lia; reflexivity.
  - rewrite length_app. simpl.
    assert (Hc : (ci + 1 <? 0)%Z = false) by (apply Z.ltb_ge; lia). rewrite Hc.
    rewrite nth_error_app2 by lia.
    replace (Z.to_nat (ci + 1)%Z - length kept)%nat with 0%nat by lia.
    repeat split; try lia; reflexivity.
Qed.

(** An undo right after a [saveState] reloads the [before] snapshot of
    the entry it recorded. *)
Lemma undo_after_save (x : Editor) :
  history_ok x -> undo_reloads (previous_snapshot x x) (saveState x).
Proof.
  intros [Hok Hms].
  destruct (push_ok (mkCmd (previous_snapshot x x) (snapshot x) true) (historyManager x) Hok Hms)
    as (_ & _ & H0 & Hj).
  rewrite <- saveState_push in H0, Hj.
  unfold undo_reloads, undo, HistoryManager.undo.
  assert (E0 : (0 <=? HistoryManager.currentIndex (historyManager (saveState x)))%Z = true)
    by (apply Z.leb_le; exact H0).
  rewrite E0, Hj. eexists. split; [reflexivity|]. unfold cmd_undo. simpl.
  destruct (previous_snapshot x x) as [[img|] ms]; repeat split.
Qed.

(** A call that ends in one [saveState] of a state with the same history
    and [_lastSnapshot] is recorded once. *)
Lemma save_recorded_once (e x : Editor) :
  lastSnapshot x = lastSnapshot e -> historyManager x = historyManager e ->
  recorded_once e (saveState x).
Proof.
  intros Hl Hh. split.
  - exists [mkCmd (previous_snapshot x x) (snapshot x) true]. split; [reflexivity|].
    simpl. rewrite saveState_push, Hh. reflexivity.
  - intros Hok. unfold history_ok in Hok. rewrite <- Hh in Hok.
    pose proof (undo_after_save x Hok) as U.
    replace (previous_snapshot e (saveState x)) with (previous_snapshot x x); [exact U|].
    unfold previous_snapshot. rewrite Hl. destruct (lastSnapshot e); [reflexivity|].
    symmetry. apply (proj1 (saveState_frame x)).
Qed.

(** After two [saveState] calls in a row an undo reloads the scene as it
    is. *)
Lemma undo_after_two_saves (y : Editor) :
  history_ok y -> undo_reloads (snapshot (saveState (saveState y))) (saveState (saveState y)).
Proof.
  intros [Hok Hms].
  destruct (push_ok (mkCmd (previous_snapshot y y) (snapshot y) true) (historyManager y) Hok Hms)
    as (Hok1 & Hms1 & _).
  rewrite <- saveState_push in Hok1, Hms1.
  assert (U : history_ok (saveState y)) by (split; [exact Hok1 | rewrite Hms1; exact Hms]).
  pose proof (undo_after_save (saveState y) U) as V.
  replace (snapshot (saveState (saveState y))) with (previous_snapshot (saveState y) (saveState y));
    [exact V|].
  destruct (saveState_frame y) as (Hs & _ & _ & _ & _ & _ & _ & Hl).
  destruct (saveState_frame (saveState y)) as (Hs2 & _).
  unfold previous_snapshot. rewrite Hl, Hs2, Hs. reflexivity.
Qed.

(** A queued scale or rotation run to its end on an idle editor with an
    image is one [saveState] of an idle state with the same history. *)
Lemma runToEnd_save j (e : Editor) :
  originalImage e <> None -> isAnimating e = false ->
  exists x, runToEnd j e = saveState x /\ lastSnapshot x = lastSnapshot e /\
            historyManager x = historyManager e /\ originalImage x <> None /\
            isAnimating x = false.
Proof.
  intros Hi Ha. destruct (originalImage e) as [img|] eqn:Himg; [|congruence].
  destruct j as [f|d]; unfold runToEnd, runJob.
  - unfold scaleImageImpl. rewrite Himg, Ha. simpl. unfold scaleDone. simpl. rewrite Himg.
    eexists. repeat split; try reflexivity. simpl. discriminate.
  - unfold rotateImageImpl. rewrite Himg, Ha. simpl. unfold rotateDone. simpl. rewrite Himg.
    eexists. repeat split; try reflexivity. simpl. discriminate.
Qed.

Lemma addMask_save cfg (e : Editor) :
  exists x, fst (addMask cfg e) = saveState x /\ lastSnapshot x = lastSnapshot e /\
            historyManager x = historyManager e.
Proof.
  unfold addMask. destruct (placement cfg (lastMask e)) as [l t].
  destruct (value_or (cfg_selectable cfg) true); eexists; repeat split; reflexivity.
Qed.

Lemma removeSelectedMask_save (e : Editor) :
  active e <> None ->
  exists x, removeSelectedMask e = saveState x /\ lastSnapshot x = lastSnapshot e /\
            historyManager x = historyManager e.
Proof.
  intros Ha. unfold removeSelectedMask. destruct (active e) as [id|] eqn:Hact; [|congruence].
  eexists. split; [reflexivity|]. unfold discardActiveObject. simpl. rewrite Hact.
  split; reflexivity.
Qed.

Lemma discardActiveObject_frame (e : Editor) :
  originalImage (discardActiveObject e) = originalImage e /\
  historyManager (discardActiveObject e) = historyManager e /\
  lastSnapshot (discardActiveObject e) = lastSnapshot e /\
  options (discardActiveObject e) = options e.
Proof. unfold discardActiveObject. destruct (active e); repeat split. Qed.

(** Mode B whose crop succeeds leaves the history alone. *)
Lemma getImageBase64_area_ok br opts (e : Editor) img :
  originalImage e = Some img -> exportImageArea opts = Some true ->
  exists e2 out, getImageBase64 br opts Fulfilled e = (e2, Ok out) /\
                 historyManager e2 = historyManager e.
Proof.
  intros Hi Ho. unfold getImageBase64. rewrite Hi, Ho. simpl.
  destruct (br img) as [[[l t] w] h]. do 2 eexists. split; [reflexivity|].
  simpl. apply discardActiveObject_frame.
Qed.

(** [merge()] whose export succeeds ends in two [saveState] calls: the one
    of [removeAllMasks] and its own. *)
Lemma merge_save br (e : Editor) :
  originalImage e <> None -> masks e <> [] ->
  exists y, fst (merge br Fulfilled e) = saveState (saveState y) /\
            historyManager y = historyManager e.
Proof.
  intros Hi Hm. unfold merge.
  destruct (originalImage e) as [img|] eqn:Himg; [|congruence].
  destruct (masks e) as [|m ms] eqn:Hms; [congruence|].
  destruct (discardActiveObject_frame e) as (Hi1 & Hh1 & _).
  rewrite Himg in Hi1.
  destruct (getImageBase64_area_ok br
              (mkExportOptions (Some true) (Some (exportMultiplier (options (discardActiveObject e)))))
              (discardActiveObject e) img Hi1 eq_refl) as (e2 & out & Hg & Hh).
  rewrite Hg. simpl. unfold removeAllMasks. eexists. split; [reflexivity|].
  simpl. destruct (discardActiveObject_frame (set_masks [] e2)) as (_ & Hh2 & _).
  rewrite Hh2. simpl. congruence.
Qed.

End EditorFacts.

(** ** Mask ids *)

Module MaskIdFacts.
Import ImageEditor EditorFacts.

Lemma fold_max_ge (ms : list Mask) (a : Z) :
  (a <= fold_left (fun acc m => Z.max acc (maskId m)) ms a)%Z /\
  Forall (fun i => (i <= fold_left (fun acc m => Z.max acc (maskId m)) ms a)%Z) (map maskId ms).
Proof.
  revert a. induction ms as [|m r IH]; intros a; simpl.
  - split; [lia | constructor].
  - destruct (IH (Z.max a (maskId m))) as [H1 H2]. split; [lia|].
    constructor; [lia | exact H2].
Qed.

Lemma max_mask_id_ge (ms : list Mask) :
  Forall (fun i => (i <= max_mask_id ms)%Z) (map maskId ms).
Proof. apply fold_max_ge. Qed.

Lemma Forall_take {A} (P : A -> Prop) n l : Forall P l -> Forall P (firstn n l).
Proof.
  revert n. induction l as [|x r IH]; intros [|n] H; simpl; auto.
  inversion H; subst. constructor; auto.
Qed.

Lemma Forall_tl {A} (P : A -> Prop) l : Forall P l -> Forall P (tl l).
Proof. destruct l; simpl; intros H; [constructor | inversion H; auto]. Qed.

Lemma Forall_replace_nth {A} (P : A -> Prop) l i x :
  Forall P l -> P x -> Forall P (replace_nth l i x).
Proof.
  revert i. induction l as [|y r IH]; intros [|i] H Hx; simpl; auto;
    inversion H; subst; constructor; auto.
Qed.

Lemma NoDup_map_filter {A B} (f : A -> B) (p : A -> bool) l :
  NoDup (map f l) -> NoDup (map f (filter p l)).
Proof.
  induction l as [|x r IH]; simpl; intros H; [constructor|].
  inversion H as [|? ? Hn Hd]; subst.
  destruct (p x); simpl; auto.
  constructor; auto. intros Hin. apply Hn.
  apply in_map_iff in Hin. destruct Hin as (y & Hy & Hin).
  apply filter_In in Hin. apply in_map_iff. exists y. tauto.
Qed.

Lemma Forall_map_filter {A B} (P : B -> Prop) (f : A -> B) (p : A -> bool) l :
  Forall P (map f l) -> Forall P (map f (filter p l)).
Proof.
  rewrite !Forall_forall. intros H y Hy. apply H.
  apply in_map_iff in Hy. destruct Hy as (x & <- & Hx).
  apply filter_In in Hx. apply in_map. tauto.
Qed.

Lemma map_maskId_restyle sel ms : map maskId (map (restyle sel) ms) = map maskId ms.
Proof. induction ms; simpl; congruence. Qed.

Lemma map_maskId_forceOpaque ms : map maskId (map forceOpaque ms) = map maskId ms.
Proof. induction ms; simpl; congruence. Qed.

Lemma map_maskId_restoreMasks backup ms :
  map maskId (restoreMasks backup ms) = map maskId ms.
Proof.
  unfold restoreMasks. revert ms. induction backup as [|b r IH]; intros ms; simpl; auto.
  rewrite IH. clear IH. induction ms as [|m ms IH]; simpl; auto.
  rewrite IH. unfold restoreFrom. destruct (Z.eqb _ _); reflexivity.
Qed.

(** The state a call works on and what it keeps of it. *)
Definition same_ids (x e : Editor) : Prop :=
  live_ids x = live_ids e /\ maskCounter x = maskCounter e /\
  originalImage x = originalImage e.
Definition same_hist (x e : Editor) : Prop :=
  historyManager x = historyManager e /\ lastSnapshot x = lastSnapshot e.

Lemma ids_transfer (x e : Editor) : same_ids x e -> ids_ok e -> ids_ok x.
Proof.
  unfold same_ids, ids_ok. intros (Hl & Hc & Hi) (Hn & Hf & Hm).
  rewrite Hl, Hc. repeat split; auto.
  intros Hx. rewrite Hi in Hx. specialize (Hm Hx).
  unfold live_ids in Hl. rewrite Hm in Hl. simpl in Hl. apply map_eq_nil in Hl. exact Hl.
Qed.

Lemma hist_transfer (x e : Editor) : same_hist x e -> hist_ok e -> hist_ok x.
Proof. unfold same_hist, hist_ok. intros [Hh Hl]. rewrite Hh, Hl. tauto. Qed.

Lemma discard_same (e : Editor) :
  same_ids (discardActiveObject e) e /\ same_hist (discardActiveObject e) e.
Proof.
  unfold same_ids, same_hist, live_ids, discardActiveObject.
  destruct (active e); simpl; [rewrite map_maskId_restyle|]; repeat split.
Qed.

Lemma snap_ok_snapshot (e : Editor) : ids_ok e -> snap_ok (snapshot e).
Proof. unfold ids_ok, snap_ok, snapshot. simpl. tauto. Qed.

(** [saveState] keeps the invariant. *)
Lemma saveState_good (x : Editor) :
  ids_ok x -> hist_ok x -> ids_ok (saveState x) /\ hist_ok (saveState x).
Proof.
  intros Hi Hh. pose proof (snap_ok_snapshot x Hi) as Hs.
  destruct (saveState_frame x) as (_ & Himg & _ & Hm & Hc & _).
  split.
  - apply (ids_transfer (saveState x) x); [|exact Hi].
    unfold same_ids, live_ids. rewrite Hm, Hc, Himg. auto.
  - destruct Hh as [Hf Hl]. rewrite saveState_eq. unfold hist_ok. simpl.
    split; [|intros s' Hs'; injection Hs' as <-; exact Hs].
    assert (Hb : snap_ok (match lastSnapshot x with Some s => s | None => snapshot x end))
      by (destruct (lastSnapshot x); auto).
    unfold HistoryManager.execute. simpl.
    set (hist1 := if (_ <? _)%Z then _ else _).
    assert (H1 : Forall (fun c => snap_ok (before c) /\ snap_ok (after c)) hist1).
    { subst hist1. destruct (_ <? _)%Z; [apply Forall_take|]; exact Hf. }
    assert (H2 : Forall (fun c => snap_ok (before c) /\ snap_ok (after c))
                   (hist1 ++ [mkCmd (match lastSnapshot x with Some s => s | None => snapshot x end)
                                    (snapshot x) true])).
    { apply Forall_app. split; [exact H1|]. constructor; [simpl; auto | constructor]. }
    destruct (_ >? _)%Z; simpl; [apply Forall_tl|]; exact H2.
Qed.

Lemma good_via_save (e x : Editor) :
  ids_ok x -> same_hist x e -> hist_ok e ->
  ids_ok (saveState x) /\ hist_ok (saveState x).
Proof. intros Hi Hs Hh. apply saveState_good; [exact Hi | exact (hist_transfer x e Hs Hh)]. Qed.

Lemma addMask_good cfg (e : Editor) :
  originalImage e <> None -> ids_ok e -> hist_ok e ->
  ids_ok (fst (addMask cfg e)) /\ hist_ok (fst (addMask cfg e)).
Proof.
  intros Himg Hi Hh. unfold addMask. destruct (placement cfg (lastMask e)) as [l t].
  set (m := mkMask _ _ _ _ _ _ _ _ _ _ _ _ _).
  destruct Hi as (Hn & Hf & _).
  assert (Hnew : ~ In (maskCounter e + 1)%Z (live_ids e)).
  { intros Hin. rewrite Forall_forall in Hf. specialize (Hf _ Hin). lia. }
  destruct (value_or (cfg_selectable cfg) true); simpl;
    (apply good_via_save with (e := e); [|split; reflexivity|exact Hh]);
    unfold ids_ok, live_ids; simpl; rewrite map_maskId_restyle, map_app; simpl;
    (split; [apply NoDup_app; [exact Hn | constructor; [intros []|constructor] |];
             intros a Ha [Hb|[]]; subst a; exact (Hnew Ha)|]);
    (split; [apply Forall_app; split;
             [eapply Forall_impl; [|exact Hf]; simpl; intros; lia | constructor; [lia|constructor]]|]);
    intros Hx; congruence.
Qed.

Lemma removeSelectedMask_good (e : Editor) :
  ids_ok e -> hist_ok e ->
  ids_ok (removeSelectedMask e) /\ hist_ok (removeSelectedMask e).
Proof.
  intros Hi Hh. unfold removeSelectedMask. destruct (active e) as [id|] eqn:Hact; [|auto].
  set (e1 := set_masks _ e).
  destruct (discard_same e1) as [Hs1 Hs2].
  apply good_via_save with (e := e); [| |exact Hh].
  - apply (ids_transfer _ e1 Hs1).
    destruct Hi as (Hn & Hf & Hm). unfold ids_ok, live_ids in *. subst e1; simpl.
    split; [apply NoDup_map_filter; exact Hn|]. split; [apply Forall_map_filter; exact Hf|].
    intros Hx. rewrite (Hm Hx). reflexivity.
  - destruct Hs2 as [H1 H2]. split; [rewrite H1 | rewrite H2]; reflexivity.
Qed.

Lemma removeAllMasks_good (e : Editor) :
  hist_ok e -> ids_ok (removeAllMasks e) /\ hist_ok (removeAllMasks e).
Proof.
  intros Hh. unfold removeAllMasks.
  destruct (discard_same (set_masks [] e)) as [Hs1 Hs2].
  apply good_via_save with (e := e); [| |exact Hh].
  - apply (ids_transfer _ (set_masks [] e)).
    + destruct Hs1 as (H1 & H2 & H3). unfold same_ids, live_ids in *. simpl in *. auto.
    + unfold ids_ok, live_ids. simpl. repeat split; constructor.
  - destruct Hs2 as [H1 H2]. split; simpl; [rewrite H1 | rewrite H2]; reflexivity.
Qed.

Lemma loadImageCallback_good src (e : Editor) :
  hist_ok e -> ids_ok (loadImageCallback src e) /\ hist_ok (loadImageCallback src e).
Proof.
  intros Hh. destruct (discard_same e) as [_ [H1 H2]]. split.
  - unfold ids_ok, live_ids. simpl. repeat split; constructor.
  - apply (hist_transfer _ e); [|exact Hh]. unfold same_hist. simpl. auto.
Qed.

Lemma runToEnd_cases j (e : Editor) :
  runToEnd j e = e \/
  exists x, runToEnd j e = saveState x /\ live_ids x = live_ids e /\
            maskCounter x = maskCounter e /\ same_hist x e /\ originalImage x <> None.
Proof.
  unfold runToEnd, runJob.
  destruct j as [f|d]; [unfold scaleImageImpl | unfold rotateImageImpl];
    destruct (originalImage e) as [img|] eqn:Hi; try (left; reflexivity);
    destruct (isAnimating e); try (left; reflexivity); right; simpl;
    [unfold scaleDone | unfold rotateDone]; simpl; rewrite Hi;
    eexists; (split; [reflexivity|]); unfold same_hist, live_ids; simpl;
    repeat split; discriminate.
Qed.

Lemma runToEnd_good j (e : Editor) :
  ids_ok e -> hist_ok e -> ids_ok (runToEnd j e) /\ hist_ok (runToEnd j e).
Proof.
  intros Hi Hh.
  destruct (runToEnd_cases j e) as [-> | (x & -> & Hl & Hc & Hsh & Hx)]; [auto|].
  apply good_via_save with (e := e); auto.
  destruct Hi as (Hn & Hf & _). unfold ids_ok. rewrite Hl, Hc.
  repeat split; auto. intros H; contradiction.
Qed.

Lemma reset_good (e : Editor) :
  ids_ok e -> hist_ok e -> ids_ok (reset e) /\ hist_ok (reset e).
Proof.
  intros Hi Hh. unfold reset. destruct (originalImage e); [|auto].
  destruct (runToEnd_good (ScaleJob 1) e Hi Hh) as [Hi1 Hh1].
  destruct (runToEnd_good (RotateJob 0) _ Hi1 Hh1) as [Hi2 Hh2].
  apply saveState_good; auto.
Qed.

Lemma getImageBase64_same br opts crop (e : Editor) :
  same_ids (fst (getImageBase64 br opts crop e)) e /\
  same_hist (fst (getImageBase64 br opts crop e)) e.
Proof.
  destruct (discard_same e) as [(Hl & Hc & Hi) (Hh & Hs)].
  unfold getImageBase64. destruct (originalImage e) as [img|] eqn:Himg;
    [|unfold same_ids, same_hist; repeat split].
  destruct (negb _); [destruct (img_element img); unfold same_ids, same_hist; repeat split|].
  destruct (br img) as [[[l t] w] h].
  unfold same_ids, same_hist, live_ids in *.
  destruct crop; simpl;
    rewrite ?map_maskId_restoreMasks, map_maskId_forceOpaque; repeat split; congruence.
Qed.

Lemma merge_good br crop (e : Editor) :
  ids_ok e -> hist_ok e -> ids_ok (fst (merge br crop e)) /\ hist_ok (fst (merge br crop e)).
Proof.
  intros Hi Hh. unfold merge.
  destruct (originalImage e); [|auto]. destruct (masks e); [auto|].
  destruct (discard_same e) as [Hs1 Hs2].
  pose proof (getImageBase64_same br
                (mkExportOptions (Some true) (Some (exportMultiplier (options (discardActiveObject e)))))
                crop (discardActiveObject e)) as [Hs3 Hs4].
  destruct (getImageBase64 _ _ _ _) as [e2 [out|]]; simpl in *.
  - assert (Hh2 : hist_ok e2).
    { apply (hist_transfer _ e); [|exact Hh].
      destruct Hs2, Hs4. split; congruence. }
    destruct (removeAllMasks_good e2 Hh2) as [Hi3 Hh3].
    apply saveState_good; auto.
  - split.
    + apply (ids_transfer _ e); [|exact Hi].
      destruct Hs1 as (? & ? & ?), Hs3 as (? & ? & ?). repeat split; congruence.
    + apply (hist_transfer _ e); [|exact Hh].
      destruct Hs2, Hs4. split; congruence.
Qed.

Lemma loadFromState_ids (s : Snapshot) (e : Editor) :
  snap_ok s -> ids_ok (loadFromState s e).
Proof.
  destruct s as [[img|] ms]; intros [Hn Hm]; unfold ids_ok, live_ids; simpl in *.
  - repeat split; auto; try apply max_mask_id_ge; try discriminate.
  - rewrite (Hm eq_refl). repeat split; constructor.
Qed.

Lemma loadFromState_hist (s : Snapshot) (e : Editor) :
  historyManager (loadFromState s e) = historyManager e /\
  lastSnapshot (loadFromState s e) = lastSnapshot e.
Proof. destruct s as [[img|] ms]; split; reflexivity. Qed.

Lemma js_index_In {A} (l : list A) i x : js_index l i = Some x -> In x l.
Proof. unfold js_index. destruct (i <? 0)%Z; [discriminate|]. apply nth_error_In. Qed.

Lemma undo_good (e e' : Editor) :
  undo e = Some e' -> ids_ok e -> hist_ok e -> ids_ok e' /\ hist_ok e'.
Proof.
  unfold undo, HistoryManager.undo. intros Hu Hi Hh.
  destruct (0 <=? _)%Z.
  - destruct (js_index _ _) as [c|] eqn:Hj; [|discriminate].
    injection Hu as <-. destruct Hh as [Hf Hl].
    pose proof (proj1 (Forall_forall _ _) Hf c (js_index_In _ _ _ Hj)) as [Hb _].
    destruct (loadFromState_hist (before c) e) as [_ Hl'].
    split.
    + apply (ids_transfer _ (loadFromState (before c) e)); [repeat split|].
      apply loadFromState_ids. exact Hb.
    + unfold hist_ok. simpl. unfold cmd_undo. rewrite Hl'. split; auto.
  - injection Hu as <-. split.
    + apply (ids_transfer _ e); [repeat split | exact Hi].
    + apply (hist_transfer _ e); [split; reflexivity | exact Hh].
Qed.

Lemma redo_good (e e' : Editor) :
  redo e = Some e' -> ids_ok e -> hist_ok e -> ids_ok e' /\ hist_ok e'.
Proof.
  unfold redo, HistoryManager.redo. intros Hu Hi Hh.
  destruct (_ <? _)%Z.
  - destruct (js_index _ _) as [c|] eqn:Hj; [|discriminate].
    destruct Hh as [Hf Hl].
    pose proof (proj1 (Forall_forall _ _) Hf c (js_index_In _ _ _ Hj)) as [Hb Ha].
    unfold cmd_execute in Hu. simpl in Hu. injection Hu as <-.
    destruct (executedOnce c).
    + destruct (loadFromState_hist (after c) e) as [_ Hl']. split.
      * apply (ids_transfer _ (loadFromState (after c) e)); [repeat split|].
        apply loadFromState_ids. exact Ha.
      * unfold hist_ok. simpl. rewrite Hl'. split; auto.
        apply Forall_replace_nth; auto.
    + split.
      * apply (ids_transfer _ e); [repeat split | exact Hi].
      * unfold hist_ok. simpl. split; auto. apply Forall_replace_nth; auto.
  - injection Hu as <-. split.
    + apply (ids_transfer _ e); [repeat split | exact Hi].
    + apply (hist_transfer _ e); [split; reflexivity | exact Hh].
Qed.

Lemma step_good (e e' : Editor) :
  editor_step e e' -> ids_ok e -> hist_ok e -> ids_ok e' /\ hist_ok e'.
Proof.
  intros Hs Hi Hh. destruct Hs.
  - now apply addMask_good.
  - now apply removeSelectedMask_good.
  - now apply removeAllMasks_good.
  - now apply loadImageCallback_good.
  - now apply runToEnd_good.
  - now apply reset_good.
  - now apply merge_good.
  - eapply undo_good; eauto.
  - eapply redo_good; eauto.
Qed.

Lemma reachable_good (o : Options) (e : Editor) :
  editor_reachable o e -> ids_ok e /\ hist_ok e.
Proof.
  induction 1 as [|e e' _ [Hi Hh] Hs].
  - unfold ids_ok, hist_ok, live_ids. simpl. repeat split; try constructor; discriminate.
  - eapply step_good; eauto.
Qed.

End MaskIdFacts.

(** ** Claims about the editor *)

Module EditorClaims.
Import ImageEditor EditorFacts.
Open Scope Q_scope.

(** Claim C1: on an idle editor, [scaleImage(f)] submitted to an idle
    queue and run to its end sets [currentScale] to
    [max(minScale, min(maxScale, f))] when an image is loaded, and leaves
    it unchanged (the call still resolves) when no image is loaded.  The
    awaited promise settles either way ([r]); the caller always gets a
    fulfilled promise, and the editor is idle again. *)
Theorem scaleImage_clamps (e : Editor) (f : Q) (i : nat) (r : outcome) :
  isAnimating e = false ->
  let s := AnimationQueue.run runJob
             [AnimationQueue.EAdd i (ScaleJob f); AnimationQueue.ESettle r]
             (AnimationQueue.create e) in
  AnimationQueue.log s = [AnimationQueue.Start i (ScaleJob f); AnimationQueue.Deliver i Fulfilled] /\
  AnimationQueue.inflight s = None /\
  isAnimating (AnimationQueue.env s) = false /\
  (originalImage e <> None ->
   currentScale (AnimationQueue.env s)
   == spec_clamp (minScale (options e)) (maxScale (options e)) f) /\
  (originalImage e = None -> currentScale (AnimationQueue.env s) = currentScale e).
Proof.
  intros Ha. unfold AnimationQueue.run. simpl.
  unfold AnimationQueue.add, AnimationQueue.processQueue, AnimationQueue.settle,
    runJob, scaleImageImpl; simpl.
  destruct (originalImage e) as [img|] eqn:Hi; simpl.
  - rewrite Ha. simpl. destruct r; simpl.
    + unfold scaleDone; simpl. rewrite Hi. save_simpl.
      repeat split; intros; try congruence. apply js_clamp_spec.
    + repeat split; intros; try congruence. apply js_clamp_spec.
  - repeat split; intros; congruence.
Qed.

Lemma scaleImage_clamps_witness :
  isAnimating example_editor = false /\
  currentScale (AnimationQueue.env
    (AnimationQueue.run runJob
       [AnimationQueue.EAdd 0 (ScaleJob 20); AnimationQueue.ESettle Fulfilled]
       (AnimationQueue.create example_editor)))
  == spec_clamp (minScale (options example_editor)) (maxScale (options example_editor)) 20.
Proof.
  split; [reflexivity|].
  apply (proj1 (proj2 (proj2 (proj2 (scaleImage_clamps example_editor 20 0 Fulfilled eq_refl))))).
  vm_compute. discriminate.
Defined.

(** Claim C2: the animation queue.  (1) For any operations and any
    sequence of submissions and settlements, operations start in
    submission order, at most one is in flight, the next one starts only
    after the one in flight has settled (fulfilled or rejected), each
    settlement is delivered to the caller whose operation started, and
    nothing waits in the queue while nothing is in flight, so a rejection
    does not hold up later operations.  (2) For the editor's scale and
    rotate operations, once the queue has drained the scale is the one the
    submitted operations give applied one after the other.  (3) In
    particular two [scaleImage] calls fired without awaiting the first end
    at the clamped target of the second, whatever the settlements. *)
Theorem animation_queue_fifo :
  (forall (E J : Type) (start : J -> E -> E * (outcome -> E -> E * outcome))
          (xs : list (AnimationQueue.input J)) (e : E),
     AnimationQueue.Inv xs (AnimationQueue.run start xs (AnimationQueue.create e))) /\
  (forall (e : Editor) xs,
     originalImage e <> None -> isAnimating e = false ->
     AnimationQueue.inflight (AnimationQueue.run runJob xs (AnimationQueue.create e)) = None ->
     currentScale (AnimationQueue.env (AnimationQueue.run runJob xs (AnimationQueue.create e)))
     == final_scale (options e) (map snd (AnimationQueue.added xs)) (currentScale e)) /\
  (forall (e : Editor) f1 f2 i1 i2 r1 r2,
     originalImage e <> None -> isAnimating e = false ->
     let s := AnimationQueue.run runJob
                [AnimationQueue.EAdd i1 (ScaleJob f1); AnimationQueue.EAdd i2 (ScaleJob f2);
                 AnimationQueue.ESettle r1; AnimationQueue.ESettle r2]
                (AnimationQueue.create e) in
     AnimationQueue.log s =
       [AnimationQueue.Start i1 (ScaleJob f1); AnimationQueue.Deliver i1 Fulfilled;
        AnimationQueue.Start i2 (ScaleJob f2); AnimationQueue.Deliver i2 Fulfilled] /\
     AnimationQueue.inflight s = None /\
     currentScale (AnimationQueue.env s)
     == spec_clamp (minScale (options e)) (maxScale (options e)) f2).
Proof.
  split; [|split].
  - intros E J start xs e. apply AnimationQueueFacts.Inv_run.
  - apply drained_scale.
  - intros e f1 f2 i1 i2 r1 r2 Hi Ha s.
    assert (Hd : AnimationQueue.log s =
       [AnimationQueue.Start i1 (ScaleJob f1); AnimationQueue.Deliver i1 Fulfilled;
        AnimationQueue.Start i2 (ScaleJob f2); AnimationQueue.Deliver i2 Fulfilled] /\
       AnimationQueue.inflight s = None).
    { subst s. unfold AnimationQueue.run, AnimationQueue.step, AnimationQueue.add,
        AnimationQueue.settle, AnimationQueue.processQueue; cbn -[runJob].
      pair_cases.
      pose proof (runJob_fulfilled _ _ _ _ r1 a Hp) as H1. rewrite Hp0 in H1.
      pose proof (runJob_fulfilled _ _ _ _ r2 a1 Hp1) as H2. rewrite Hp2 in H2.
      simpl in H1, H2. subst. auto. }
    destruct Hd as [Hl Hn]. split; [exact Hl|]. split; [exact Hn|].
    exact (drained_scale e _ Hi Ha Hn).
Qed.

Lemma animation_queue_fifo_witness :
  originalImage example_editor <> None /\ isAnimating example_editor = false /\
  currentScale (AnimationQueue.env
    (AnimationQueue.run runJob
       [AnimationQueue.EAdd 0 (ScaleJob 2); AnimationQueue.EAdd 1 (ScaleJob 3);
        AnimationQueue.ESettle Rejected; AnimationQueue.ESettle Fulfilled]
       (AnimationQueue.create example_editor)))
  == spec_clamp (minScale (options example_editor)) (maxScale (options example_editor)) 3.
Proof.
  assert (Hi : originalImage example_editor <> None) by (vm_compute; discriminate).
  assert (Ha : isAnimating example_editor = false) by reflexivity.
  split; [exact Hi|]. split; [exact Ha|].
  exact (proj2 (proj2 (proj2 (proj2 animation_queue_fifo)
                        example_editor 2 3 0%nat 1%nat Rejected Fulfilled Hi Ha))).
Defined.

(** Claim C9: with [exportImageArea: false], [getImageBase64] on a loaded
    image (whose source element is present, as for every image
    [loadImage] installs, see [loadImageCallback_image]) encodes the
    image's own [width] x [height] pixels, whatever the current scale,
    rotation and masks, and changes nothing in the editor. *)
Theorem export_native_size (br : FImage -> Q * Q * Q * Q) (opts : ExportOptions)
  (crop : outcome) (e : Editor) (img : FImage) :
  originalImage e = Some img -> img_element img = true ->
  exportImageArea opts = Some false ->
  getImageBase64 br opts crop e = (e, Ok (ImageData (img_width img) (img_height img))).
Proof.
  intros Hi Hel Ho. unfold getImageBase64. rewrite Hi, Ho. simpl. rewrite Hel. reflexivity.
Qed.

Lemma export_native_size_witness :
  originalImage example_transformed = Some (mkImage 1000 800 true 2 90) /\
  getImageBase64 example_boundingRect (mkExportOptions (Some false) (Some 3)) Fulfilled
    example_transformed = (example_transformed, Ok (ImageData 1000 800)).
Proof.
  assert (Hi : originalImage example_transformed = Some (mkImage 1000 800 true 2 90))
    by (vm_compute; reflexivity).
  split; [exact Hi|].
  exact (export_native_size example_boundingRect (mkExportOptions (Some false) (Some 3))
           Fulfilled example_transformed _ Hi eq_refl eq_refl).
Defined.

(** Claim C6 (the code misses its own comment: "internal mask placement
    memory are reset"): [removeAllMasks] clears the [_lastMaskInitial*]
    fields but keeps [_lastMask], which is what [addMask] cascades from.
    So after [addMask()], [removeAllMasks()], [addMask()] on the example
    editor the new mask sits to the right of the removed one (left 66)
    instead of at the default inset (10, 10). *)
Theorem removeAllMasks_keeps_cascade :
  (forall e, lastMask (removeAllMasks e) = lastMask e) /\
  (let e1 := removeAllMasks (fst (addMask no_config example_editor)) in
   masks e1 = [] /\
   m_left (snd (addMask no_config e1)) == 66 /\
   m_top (snd (addMask no_config e1)) == 10).
Proof.
  split.
  - intros e. unfold removeAllMasks. rewrite saveState_eq. simpl.
    unfold discardActiveObject. simpl. destruct (active e); reflexivity.
  - vm_compute. repeat split; reflexivity.
Qed.

(** Claim C3 (the code misses its own comment: "Will restore masks'
    state after temporary modifications"): with [exportImageArea: true]
    the masks are forced to opaque black, unselectable and unstroked
    before the crop is awaited, and restored only after the await
    succeeds; there is no [try]/[finally].  When the crop fails, the call
    rejects and the example editor's mask keeps opacity 1, fill
    ["#000000"], no stroke, stroke width 0 and [selectable = false],
    instead of its opacity 0.5, its fill, its stroke (red, as the mask is
    selected) of width 1 and [selectable = true]. *)
Theorem export_area_reject_keeps_masks_forced :
  let e1 := fst (addMask no_config example_editor) in
  let r := getImageBase64 example_boundingRect (mkExportOptions (Some true) None) Rejected e1 in
  snd r = Err /\
  map opacity (masks e1) = [1 # 2] /\ map opacity (masks (fst r)) = [1] /\
  map fill (masks e1) = ["rgba(0,0,0,0.5)"%string] /\
  map fill (masks (fst r)) = ["#000000"%string] /\
  map stroke (masks e1) = [Some "#ff0000"%string] /\ map stroke (masks (fst r)) = [None] /\
  map strokeWidth (masks e1) = [1] /\ map strokeWidth (masks (fst r)) = [0] /\
  map selectable (masks e1) = [true] /\ map selectable (masks (fst r)) = [false].
Proof. vm_compute. repeat split. Qed.

(** Claim C10 (the code misses its own comment: "Resolves when merge and
    load are complete"): [merge] awaits [loadImage], which returns before
    the [fabric.Image.fromURL] callback has run.  So when the promise of
    [merge()] on [example_scaled] (one mask, scale 2) resolves, the scale
    is still 2 and [maskCounter] still 1, and a mask added then gets id 2;
    only the pending callback later resets the scale to 1, the rotation
    to 0 and the counter to 0. *)
Theorem merge_resolves_before_reload :
  let '(e1, pending) := merge example_boundingRect Fulfilled example_scaled in
  masks e1 = [] /\
  currentScale e1 == 2 /\ maskCounter e1 = 1%Z /\
  maskId (snd (addMask no_config e1)) = 2%Z /\
  match pending with
  | Some src =>
      let e2 := loadImageCallback src e1 in
      currentScale e2 == 1 /\ currentRotation e2 == 0 /\ maskCounter e2 = 0%Z
  | None => False
  end.
Proof. vm_compute. repeat split; reflexivity. Qed.

(** Claim C5, as the code has it: on an idle editor with an image,
    [scaleImage], [rotateImage], [addMask] and [removeSelectedMask] (with
    a selection) each record exactly one history entry (one
    [HistoryManager.execute]: redo tail cut, entry appended, oldest entry
    dropped over [maxSize]); [reset] records three (its scale, its
    rotation and its own [saveState]) and a [merge] whose export succeeds
    two ([removeAllMasks] and its own [saveState]).  With a valid cursor
    and [maxSize >= 1], an undo right after any of them reloads only the
    scene (image and masks) and keeps [currentScale] and
    [currentRotation]: after the one-entry calls it reloads the snapshot
    the previous [saveState] recorded ([_lastSnapshot]), or the call's own
    result when there is none; after [reset] and [merge] it reloads the
    scene the call ended with. *)
Theorem history_entries_per_call (e : Editor) :
  originalImage e <> None -> isAnimating e = false ->
  (forall f, recorded_once e (runToEnd (ScaleJob f) e)) /\
  (forall d, recorded_once e (runToEnd (RotateJob d) e)) /\
  (forall cfg, recorded_once e (fst (addMask cfg e))) /\
  (active e <> None -> recorded_once e (removeSelectedMask e)) /\
  (recorded 3 e (reset e) /\
   (history_ok e -> undo_reloads (snapshot (reset e)) (reset e))) /\
  (masks e <> [] -> forall br,
     recorded 2 e (fst (merge br Fulfilled e)) /\
     (history_ok e -> undo_reloads (snapshot (fst (merge br Fulfilled e))) (fst (merge br Fulfilled e)))).
Proof.
  intros Hi Ha.
  split; [|split; [|split; [|split; [|split]]]].
  - intros f. destruct (runToEnd_save (ScaleJob f) e Hi Ha) as (x & -> & Hl & Hh & _).
    now apply save_recorded_once.
  - intros d. destruct (runToEnd_save (RotateJob d) e Hi Ha) as (x & -> & Hl & Hh & _).
    now apply save_recorded_once.
  - intros cfg. destruct (addMask_save cfg e) as (x & -> & Hl & Hh).
    now apply save_recorded_once.
  - intros Hact. destruct (removeSelectedMask_save e Hact) as (x & -> & Hl & Hh).
    now apply save_recorded_once.
  - replace (reset e) with (saveState (runToEnd (RotateJob 0) (runToEnd (ScaleJob 1) e)))
      by (unfold reset; destruct (originalImage e); congruence).
    destruct (runToEnd_save (ScaleJob 1) e Hi Ha) as (x1 & -> & _ & Hh1 & Hix1 & Hax1).
    destruct (saveState_frame x1) as (_ & Hi2 & Ha2 & _).
    assert (Hi2' : originalImage (saveState x1) <> None) by (rewrite Hi2; exact Hix1).
    destruct (runToEnd_save (RotateJob 0) (saveState x1) Hi2' (eq_trans Ha2 Hax1))
      as (x2 & -> & _ & Hh2 & _).
    split.
    + exists [mkCmd (previous_snapshot x1 x1) (snapshot x1) true;
              mkCmd (previous_snapshot x2 x2) (snapshot x2) true;
              mkCmd (previous_snapshot (saveState x2) (saveState x2)) (snapshot (saveState x2)) true].
      split; [reflexivity|]. simpl.
      rewrite !saveState_push, Hh2, saveState_push, Hh1. reflexivity.
    + intros [Hok Hms]. apply undo_after_two_saves.
      rewrite <- Hh1 in Hok, Hms.
      destruct (push_ok (mkCmd (previous_snapshot x1 x1) (snapshot x1) true) (historyManager x1) Hok Hms)
        as (Hok1 & Hms1 & _).
      rewrite <- saveState_push, <- Hh2 in Hok1, Hms1.
      split; [exact Hok1 | rewrite Hms1; exact Hms].
  - intros Hm br. destruct (merge_save br e Hi Hm) as (y & -> & Hh). split.
    + exists [mkCmd (previous_snapshot y y) (snapshot y) true;
              mkCmd (previous_snapshot (saveState y) (saveState y)) (snapshot (saveState y)) true].
      split; [reflexivity|]. simpl.
      rewrite !saveState_push, Hh. reflexivity.
    + intros Hok. apply undo_after_two_saves. unfold history_ok in *. rewrite Hh. exact Hok.
Qed.

Lemma history_entries_per_call_witness :
  originalImage example_editor <> None /\ isAnimating example_editor = false /\
  history_ok example_editor /\
  recorded 3 example_editor (reset example_editor) /\
  undo_reloads (snapshot (reset example_editor)) (reset example_editor).
Proof.
  assert (H3 : originalImage example_editor <> None) by (vm_compute; discriminate).
  assert (H4 : isAnimating example_editor = false) by reflexivity.
  assert (H5 : history_ok example_editor)
    by (unfold history_ok, HistoryManager.cursor_ok; vm_compute; split; [split; discriminate | discriminate]).
  destruct (history_entries_per_call example_editor H3 H4) as (_ & _ & _ & _ & (R & U) & _).
  split; [exact H3|]. split; [exact H4|]. split; [exact H5|]. split; [exact R|]. exact (U H5).
Defined.

(** Counterexample to C5 as stated: [reset()] on the example editor adds
    three history entries, not one; and an [undo()] right after
    [scaleImage(2)] on the example editor with one mask leaves
    [currentScale] at 2, not at the 1 it had before the call. *)
Lemma history_per_call_counterexample :
  hist_len example_editor = 0%nat /\ hist_len (reset example_editor) = 3%nat /\
  currentScale (fst (addMask no_config example_editor)) == 1 /\
  exists e'', undo example_scaled = Some e'' /\ currentScale e'' == 2.
Proof.
  split; [vm_compute; reflexivity|]. split; [vm_compute; reflexivity|].
  split; [vm_compute; reflexivity|].
  destruct (undo example_scaled) as [x|] eqn:U; [|vm_compute in U; discriminate].
  exists x. split; [reflexivity|]. vm_compute in U. injection U as <-. vm_compute. reflexivity.
Qed.

(** Claim C7, as the code has it: if the entry at the cursor is one that
    [saveState] recorded (its command has run once), [undo()] reloads the
    entry's [before] snapshot and a [redo()] right after reloads its
    [after] snapshot.  That is the scene current before the undo only when
    nothing changed the scene without being recorded since the entry was
    made. *)
Theorem undo_redo_reloads_entry (e e1 e2 : Editor) (c : Cmd) :
  js_index (HistoryManager.history (historyManager e))
           (HistoryManager.currentIndex (historyManager e)) = Some c ->
  executedOnce c = true -> undo e = Some e1 -> redo e1 = Some e2 ->
  snapshot e2 = after c /\ snapshot e1 = before c.
Proof.
  destruct (historyManager e) as [hist ci ms] eqn:Hh. simpl.
  intros Hj Hx Hu Hr.
  assert (Hci : (0 <= ci)%Z).
  { unfold js_index in Hj. destruct (ci <? 0)%Z eqn:Hlt; [discriminate|].
    apply Z.ltb_ge in Hlt. exact Hlt. }
  assert (Hlen : (ci < Z.of_nat (length hist))%Z).
  { unfold js_index in Hj. destruct (ci <? 0)%Z; [discriminate|].
    assert (Hn : (Z.to_nat ci < length hist)%nat)
      by (apply nth_error_Some; congruence). lia. }
  unfold undo, HistoryManager.undo in Hu. rewrite Hh in Hu. simpl in Hu.
  assert (H0 : (0 <=? ci)%Z = true) by (apply Z.leb_le; exact Hci).
  rewrite H0, Hj in Hu. injection Hu as <-.
  unfold redo, HistoryManager.redo in Hr. simpl in Hr.
  assert (H1 : (ci - 1 <? Z.of_nat (length hist) - 1)%Z = true) by (apply Z.ltb_lt; lia).
  rewrite H1 in Hr. replace (ci - 1 + 1)%Z with ci in Hr by lia.
  rewrite Hj in Hr. unfold cmd_execute in Hr. rewrite Hx in Hr. simpl in Hr.
  injection Hr as <-. simpl. unfold cmd_undo.
  split; apply snapshot_loadFromState.
Qed.

Lemma undo_redo_reloads_entry_witness :
  exists c e1 e2,
    js_index (HistoryManager.history (historyManager example_scaled))
             (HistoryManager.currentIndex (historyManager example_scaled)) = Some c /\
    executedOnce c = true /\ undo example_scaled = Some e1 /\ redo e1 = Some e2 /\
    snapshot e2 = after c.
Proof.
  exists (match js_index (HistoryManager.history (historyManager example_scaled))
                  (HistoryManager.currentIndex (historyManager example_scaled)) with
          | Some c => c | None => mkCmd (snapshot example_scaled) (snapshot example_scaled) true
          end),
         (match undo example_scaled with Some x => x | None => example_scaled end),
         (match redo (match undo example_scaled with Some x => x | None => example_scaled end) with
          | Some x => x | None => example_scaled end).
  assert (Hj : js_index (HistoryManager.history (historyManager example_scaled))
                 (HistoryManager.currentIndex (historyManager example_scaled)) =
               Some (match js_index (HistoryManager.history (historyManager example_scaled))
                             (HistoryManager.currentIndex (historyManager example_scaled)) with
                     | Some c => c
                     | None => mkCmd (snapshot example_scaled) (snapshot example_scaled) true
                     end)) by (vm_compute; reflexivity).
  assert (Hx : executedOnce (match js_index (HistoryManager.history (historyManager example_scaled))
                             (HistoryManager.currentIndex (historyManager example_scaled)) with
                     | Some c => c
                     | None => mkCmd (snapshot example_scaled) (snapshot example_scaled) true
                     end) = true) by (vm_compute; reflexivity).
  assert (Hu : undo example_scaled =
               Some (match undo example_scaled with Some x => x | None => example_scaled end))
    by (vm_compute; reflexivity).
  assert (Hr : redo (match undo example_scaled with Some x => x | None => example_scaled end) =
               Some (match redo (match undo example_scaled with Some x => x | None => example_scaled end) with
                     | Some x => x | None => example_scaled end))
    by (vm_compute; reflexivity).
  split; [exact Hj|]. split; [exact Hx|]. split; [exact Hu|]. split; [exact Hr|].
  exact (proj1 (undo_redo_reloads_entry example_scaled
           (match undo example_scaled with Some x => x | None => example_scaled end)
           (match redo (match undo example_scaled with Some x => x | None => example_scaled end) with
            | Some x => x | None => example_scaled end)
           (match js_index (HistoryManager.history (historyManager example_scaled))
                     (HistoryManager.currentIndex (historyManager example_scaled)) with
            | Some c => c
            | None => mkCmd (snapshot example_scaled) (snapshot example_scaled) true
            end) Hj Hx Hu Hr)).
Defined.

(** Counterexample to C7 as stated: after a scale to 2 (recorded) and the
    load of another image (not recorded), [undo()] then [redo()] brings
    back the scaled first image, not the scene current before the undo. *)
Lemma undo_redo_not_identity :
  match undo example_reloaded with
  | Some e1 =>
      match redo e1 with
      | Some e2 => snapshot e2 <> snapshot example_reloaded /\
                   snapshot e2 = snapshot (runToEnd (ScaleJob 2) example_editor)
      | None => False
      end
  | None => False
  end.
Proof. vm_compute. split; [discriminate | reflexivity]. Qed.

(** Claim C8, as the code has it: [addMask] gives the new mask the id
    [maskCounter + 1] and stores it in [maskCounter]; a completed
    [loadImage] sets [maskCounter] to 0 and clears the masks, so the next
    mask gets id 1; [undo]/[redo] reload a snapshot and set [maskCounter]
    to the largest id in it, so after an undo an id handed out before can
    be handed out again.  The ids of the live masks stay distinct in every
    editor reached by the public operations when masks are only added
    while an image is loaded. *)
Theorem mask_ids_assigned :
  (forall cfg e,
     maskId (snd (addMask cfg e)) = (maskCounter e + 1)%Z /\
     maskCounter (fst (addMask cfg e)) = (maskCounter e + 1)%Z /\
     live_ids (fst (addMask cfg e)) = live_ids e ++ [(maskCounter e + 1)%Z]) /\
  (forall src e cfg,
     maskCounter (loadImageCallback src e) = 0%Z /\ live_ids (loadImageCallback src e) = [] /\
     maskId (snd (addMask cfg (loadImageCallback src e))) = 1%Z) /\
  (forall s e, snap_image s <> None ->
     maskCounter (loadFromState s e) = max_mask_id (snap_masks s)) /\
  (forall o e, editor_reachable o e -> NoDup (live_ids e)).
Proof.
  split; [|split; [|split]].
  - intros cfg e. unfold addMask, live_ids.
    destruct (placement cfg (lastMask e)) as [l t].
    destruct (value_or (cfg_selectable cfg) true); simpl; rewrite saveState_eq; simpl;
      rewrite MaskIdFacts.map_maskId_restyle, map_app; repeat split.
  - intros src e cfg. repeat split.
    unfold addMask. destruct (placement _ _). reflexivity.
  - intros [[img|] ms] e H; [reflexivity | simpl in H; congruence].
  - intros o e H. exact (proj1 (proj1 (MaskIdFacts.reachable_good o e H))).
Qed.

Lemma mask_ids_assigned_witness :
  editor_reachable default_options example_two_masks /\ NoDup (live_ids example_two_masks).
Proof.
  assert (H : editor_reachable default_options example_two_masks).
  { assert (Hi0 : originalImage example_editor <> None) by (vm_compute; discriminate).
    assert (Hi1 : originalImage (fst (addMask no_config example_editor)) <> None)
      by (vm_compute; discriminate).
    apply (reach_step _ (fst (addMask no_config example_editor))).
    - apply (reach_step _ example_editor).
      + apply (reach_step _ (create default_options)); [apply reach_new | apply step_loadImage].
      + apply step_addMask. exact Hi0.
    - apply step_addMask. exact Hi1. }
  split; [exact H|].
  exact (proj2 (proj2 (proj2 mask_ids_assigned)) default_options example_two_masks H).
Defined.

(** Counterexample to C8 as stated: the ids handed out on the example
    editor by [addMask()], [addMask()], [undo()], [addMask()] are 1, 2, 2:
    not strictly increasing. *)
Lemma mask_id_reused_after_undo :
  maskId (snd (addMask no_config example_editor)) = 1%Z /\
  maskId (snd (addMask no_config (fst (addMask no_config example_editor)))) = 2%Z /\
  match undo example_two_masks with
  | Some e1 => maskId (snd (addMask no_config e1)) = 2%Z
  | None => False
  end.
Proof. vm_compute. repeat split. Qed.

End EditorClaims.

(** ** Further facts about the code *)

Module ExtraFacts.
Import ImageEditor EditorExtras.
Local Open Scope Q_scope.

(** Rounding and the canvas size helpers on integers. *)

Lemma js_round_Z (n : Z) : js_round (inject_Z n) = n.
Proof.
  unfold js_round, Qfloor, Qplus, inject_Z. simpl.
  symmetry. apply Z.div_unique with (r := 1%Z); lia.
Qed.

Lemma js_round_le (x : Q) (n : Z) : x <= inject_Z n -> (js_round x <= n)%Z.
Proof.
  intros H. rewrite <- (js_round_Z n). unfold js_round.
  apply Qfloor_resp_le. apply Qplus_le_compat; [exact H | apply Qle_refl].
Qed.

Lemma js_round_ge (x : Q) (n : Z) : inject_Z n <= x -> (n <= js_round x)%Z.
Proof.
  intros H. rewrite <- (js_round_Z n) at 1. unfold js_round.
  apply Qfloor_resp_le. apply Qplus_le_compat; [exact H | apply Qle_refl].
Qed.

Lemma js_or_Z (n : Z) (d : Q) : (n <> 0)%Z -> js_or (inject_Z n) d = inject_Z n.
Proof.
  intros Hn. unfold js_or. destruct (Qeq_bool (inject_Z n) 0) eqn:H; [|reflexivity].
  apply Qeq_bool_iff in H. unfold Qeq in H. simpl in H. lia.
Qed.

Lemma setCanvasSizeInt_Z (w h : Z) :
  (1 <= w)%Z -> (1 <= h)%Z -> setCanvasSizeInt (inject_Z w) (inject_Z h) = (w, h).
Proof.
  intros Hw Hh. unfold setCanvasSizeInt.
  rewrite !js_or_Z by lia. rewrite !js_round_Z. f_equal; lia.
Qed.

Lemma setCanvasSizeInt_ge (w h : Z) :
  (Z.max 1 w <= fst (setCanvasSizeInt (inject_Z w) (inject_Z h)))%Z /\
  (Z.max 1 h <= snd (setCanvasSizeInt (inject_Z w) (inject_Z h)))%Z.
Proof.
  unfold setCanvasSizeInt. simpl.
  split; [destruct (Z.eq_dec w 0) as [->|Hw] | destruct (Z.eq_dec h 0) as [->|Hh]];
    try (rewrite js_or_Z by exact Hw); try (rewrite js_or_Z by exact Hh);
    try (unfold js_or; simpl); rewrite ?js_round_Z; try lia.
  all: change (1 # 1) with (inject_Z 1); rewrite js_round_Z; lia.
Qed.

Lemma Qle_bool_Z (a b : Z) : Qle_bool (inject_Z a) (inject_Z b) = (a <=? b)%Z.
Proof.
  destruct (Qle_bool _ _) eqn:H; symmetry.
  - apply Qle_bool_iff in H. rewrite <- Zle_Qle in H. now apply Z.leb_le.
  - apply Z.leb_gt. destruct (Z.le_gt_cases a b) as [Hle|]; [|lia].
    rewrite Zle_Qle in Hle. apply Qle_bool_iff in Hle. congruence.
Qed.

Lemma js_max_Z (a b : Z) : js_max (inject_Z a) (inject_Z b) = inject_Z (Z.max a b).
Proof.
  unfold js_max. rewrite Qle_bool_Z. destruct (Z.leb_spec a b); f_equal; lia.
Qed.

Lemma js_min_le_l a b : js_min a b <= a.
Proof.
  unfold js_min. destruct (Qle_bool a b) eqn:H; [apply Qle_refl|].
  apply Qlt_le_weak, Qnot_le_lt. intros H'. apply Qle_bool_iff in H'. congruence.
Qed.

Lemma js_min_le_r a b : js_min a b <= b.
Proof.
  unfold js_min. destruct (Qle_bool a b) eqn:H; [now apply Qle_bool_iff|apply Qle_refl].
Qed.

Lemma js_min_pos a b : 0 < a -> 0 < b -> 0 < js_min a b.
Proof. unfold js_min. destruct (Qle_bool a b); auto. Qed.

Lemma Qdiv_pos (a b : Q) : 0 < a -> 0 < b -> 0 < a / b.
Proof. intros Ha Hb. apply Qlt_shift_div_l; [exact Hb|]. lra. Qed.

Lemma Q_one_le_Z (w : Z) : (1 <= w)%Z -> 1 <= inject_Z w.
Proof. intros H. change 1 with (inject_Z 1). rewrite <- Zle_Qle. exact H. Qed.

Lemma half_gap (a b : Q) : 0 <= b <= a -> 0 <= (a - b) / 2 /\ (a - b) / 2 + b <= a.
Proof. intros H. change ((a - b) / 2) with ((a - b) * (1 # 2)). split; lra. Qed.

Lemma fitLayout_ok (cw ch w h : Z) :
  (1 <= w)%Z -> (1 <= h)%Z -> (1 <= cw)%Z -> (1 <= ch)%Z ->
  let L := fitLayout (inject_Z cw) (inject_Z ch) (inject_Z w) (inject_Z h) in
  0 < lay_scale L <= 1 /\ lay_base L == lay_scale L /\ 0 <= lay_left L /\ 0 <= lay_top L /\
  lay_left L + inject_Z w * lay_scale L <= inject_Z (fst (lay_canvas L)) /\
  lay_top L + inject_Z h * lay_scale L <= inject_Z (snd (lay_canvas L)).
Proof.
  intros Hw Hh Hcw Hch. unfold fitLayout. cbn [lay_canvas lay_left lay_top lay_scale lay_base].
  rewrite setCanvasSizeInt_Z by lia. cbn [fst snd].
  assert (Qw : 1 <= inject_Z w) by (apply Q_one_le_Z; exact Hw).
  assert (Qh : 1 <= inject_Z h) by (apply Q_one_le_Z; exact Hh).
  assert (Qcw : 1 <= inject_Z cw) by (apply Q_one_le_Z; exact Hcw).
  assert (Qch : 1 <= inject_Z ch) by (apply Q_one_le_Z; exact Hch).
  set (s := js_min (js_min (inject_Z cw / inject_Z w) (inject_Z ch / inject_Z h)) 1).
  assert (Hs1 : s <= 1) by apply js_min_le_r.
  assert (Hsw : s <= inject_Z cw / inject_Z w)
    by (eapply Qle_trans; [apply js_min_le_l | apply js_min_le_l]).
  assert (Hsh : s <= inject_Z ch / inject_Z h)
    by (eapply Qle_trans; [apply js_min_le_l | apply js_min_le_r]).
  assert (Hs0 : 0 < s).
  { apply js_min_pos; [apply js_min_pos; apply Qdiv_pos; lra | lra]. }
  assert (Hpw : inject_Z w * s <= inject_Z cw).
  { rewrite <- (Qmult_div_r (inject_Z cw) (inject_Z w)) by lra.
    apply Qmult_le_l; [lra | exact Hsw]. }
  assert (Hph : inject_Z h * s <= inject_Z ch).
  { rewrite <- (Qmult_div_r (inject_Z ch) (inject_Z h)) by lra.
    apply Qmult_le_l; [lra | exact Hsh]. }
  assert (Hpw0 : 0 <= inject_Z w * s) by (apply Qmult_le_0_compat; lra).
  assert (Hph0 : 0 <= inject_Z h * s) by (apply Qmult_le_0_compat; lra).
  assert (Hb : js_or s 1 == s).
  { unfold js_or. destruct (Qeq_bool s 0) eqn:E; [|reflexivity].
    apply Qeq_bool_iff in E. lra. }
  repeat split; try lra.
  all: apply half_gap; split; assumption.
Qed.

(** When the image is no larger than the canvas, the fit layout keeps it
    at scale 1 and centres it inside the canvas. *)
Lemma fitLayout_fits (cw ch w h : Z) :
  (1 <= w)%Z -> (1 <= h)%Z -> (1 <= cw)%Z -> (1 <= ch)%Z ->
  let L := fitLayout (inject_Z cw) (inject_Z ch) (inject_Z w) (inject_Z h) in
  0 < lay_scale L <= 1 /\ lay_base L == lay_scale L /\
  ((w <= fst (lay_canvas L) /\ h <= snd (lay_canvas L))%Z ->
   lay_scale L == 1 /\ 0 <= lay_left L /\ 0 <= lay_top L /\
   lay_left L + inject_Z w <= inject_Z (fst (lay_canvas L)) /\
   lay_top L + inject_Z h <= inject_Z (snd (lay_canvas L))).
Proof.
  intros Hw Hh Hcw Hch. cbv zeta.
  destruct (fitLayout_ok cw ch w h Hw Hh Hcw Hch) as (Hs & Hb & Hl & Ht & Hlw & Hth).
  split; [exact Hs|]. split; [exact Hb|].
  intros [Fw Fh].
  assert (S1 : lay_scale (fitLayout (inject_Z cw) (inject_Z ch) (inject_Z w) (inject_Z h)) == 1).
  { unfold fitLayout in Fw, Fh |- *. cbn [lay_canvas lay_scale] in Fw, Fh |- *.
    rewrite setCanvasSizeInt_Z in Fw, Fh by lia. cbn [fst snd] in Fw, Fh.
    assert (Qw : 0 < inject_Z w) by (apply Q_one_le_Z in Hw; lra).
    assert (Qh : 0 < inject_Z h) by (apply Q_one_le_Z in Hh; lra).
    assert (A : 1 <= inject_Z cw / inject_Z w).
    { apply Qle_shift_div_l; [exact Qw|]. rewrite Qmult_1_l, <- Zle_Qle. exact Fw. }
    assert (B : 1 <= inject_Z ch / inject_Z h).
    { apply Qle_shift_div_l; [exact Qh|]. rewrite Qmult_1_l, <- Zle_Qle. exact Fh. }
    set (a := inject_Z cw / inject_Z w) in *. set (b := inject_Z ch / inject_Z h) in *.
    assert (M : 1 <= js_min a b) by (unfold js_min; destruct (Qle_bool a b); assumption).
    set (m := js_min a b) in *. unfold js_min.
    destruct (Qle_bool m 1) eqn:E; [apply Qle_bool_iff in E; lra | reflexivity]. }
  split; [exact S1|]. split; [exact Hl|]. split; [exact Ht|].
  rewrite S1, Qmult_1_r in Hlw, Hth. split; assumption.
Qed.

Lemma js_max_same (a : Q) : js_max a a = a.
Proof. unfold js_max. now destruct (Qle_bool a a). Qed.

(** The scale and [baseImageScale] the [fromURL] callback gives are those
    of its layout without a container element. *)
Lemma loadImageCallback_layout (src : Raster) (e : Editor) :
  let L := loadImageLayout (options e) None (inject_Z (r_width src)) (inject_Z (r_height src)) in
  option_map img_scale (originalImage (loadImageCallback src e)) = Some (lay_scale L) /\
  baseImageScale (loadImageCallback src e) = lay_base L.
Proof.
  unfold loadImageLayout, loadImageCallback. rewrite !js_max_same.
  destruct (fitImageToCanvas (options e)), (expandCanvasToImage (options e)); split; reflexivity.
Qed.

(** The history stays within its capacity. *)

Section HistoryBounds.
Local Open Scope Z_scope.
Context {E C : Type}.
Variable ce : C -> E -> E * C.
Variable cu : C -> E -> E.
Import HistoryManager.

Lemma slice0_length_le (l : list C) n : (length (slice0 l n) <= length l)%nat.
Proof. unfold slice0. rewrite length_firstn. lia. Qed.

Lemma execute_length_le (c : C) (h : t C) (e : E) :
  0 <= maxSize h -> Z.of_nat (length (history h)) <= maxSize h ->
  Z.of_nat (length (history (fst (execute ce c h e)))) <= maxSize h /\
  maxSize (fst (execute ce c h e)) = maxSize h.
Proof.
  intros H0 H. unfold execute. destruct (ce c e) as [e1 c1].
  set (hist1 := if currentIndex h <? Z.of_nat (length (history h)) - 1
                then slice0 (history h) (currentIndex h + 1) else history h).
  assert (L1 : (length hist1 <= length (history h))%nat).
  { subst hist1. destruct (_ <? _); [apply slice0_length_le | lia]. }
  destruct (Z.of_nat (length (hist1 ++ [c1])) >? maxSize h) eqn:G; simpl; split; auto.
  - apply Z.gtb_lt in G. rewrite length_app in G. simpl in G.
    assert (Lt : length (tl (hist1 ++ [c1])) = length hist1).
    { destruct hist1; simpl; [reflexivity|]. rewrite length_app. simpl. lia. }
    rewrite Lt. lia.
  - rewrite Z.gtb_ltb in G. apply Z.ltb_ge in G. exact G.
Qed.

Lemma history_bounded_gen (h : t C) (e : E) :
  reachable ce cu h e -> 0 <= maxSize h /\ Z.of_nat (length (history h)) <= maxSize h.
Proof.
  induction 1 as [n e Hn|h e c R [IH0 IH]|h e h' e' R [IH0 IH] U|h e h' e' R [IH0 IH] U].
  - simpl. lia.
  - destruct (execute_length_le c h e IH0 IH) as [A B]. rewrite B. auto.
  - unfold undo in U. destruct (0 <=? currentIndex h); [|inversion U; subst; auto].
    destruct (js_index (history h) (currentIndex h)); [|congruence].
    inversion U; subst. simpl. auto.
  - unfold redo in U. destruct (_ <? _); [|inversion U; subst; auto].
    destruct (js_index (history h) (currentIndex h + 1)) as [c|]; [|congruence].
    destruct (ce c e). inversion U; subst. simpl. rewrite replace_nth_length. auto.
Qed.

End HistoryBounds.

Section Indexing.
Local Open Scope Z_scope.

Lemma js_index_some {A} (l : list A) (i : Z) :
  0 <= i < Z.of_nat (length l) -> exists x, js_index l i = Some x.
Proof.
  intros H. unfold js_index. destruct (Z.ltb_spec i 0); [lia|].
  destruct (nth_error l (Z.to_nat i)) eqn:E; [eauto|].
  apply nth_error_None in E. lia.
Qed.

End Indexing.

Lemma lower_ascii_idem (c : ascii) : lower_ascii (lower_ascii c) = lower_ascii c.
Proof. destruct c as [[] [] [] [] [] [] [] []]; reflexivity. Qed.

Lemma toLowerCase_idem (s : string) : toLowerCase (toLowerCase s) = toLowerCase s.
Proof. induction s as [|c r IH]; simpl; [reflexivity|]. now rewrite lower_ascii_idem, IH. Qed.

Section MimeValues.
Local Open Scope string_scope.

(** The template string [exportImageFile] passes to [new File]. *)
Lemma exportMime_values (ft : string) :
  exportMime (toLowerCase ft) = exportMime ft /\
  (exportMime ft = "image/jpeg" \/ exportMime ft = "image/png" \/ exportMime ft = "image/webp" \/
   (toLowerCase ft = "constructor" /\
    exportMime ft = "image/function Object() { [native code] }") \/
   (toLowerCase ft = "__proto__" /\ exportMime ft = "image/[object Object]")).
Proof.
  split; [unfold exportMime, safeFileType; now rewrite toLowerCase_idem|].
  unfold exportMime, safeFileType, typeMapping.
  repeat match goal with
  | |- context [String.eqb ?a ?b] =>
      let E := fresh "E" in destruct (String.eqb a b) eqn:E
  end; cbn [js_text];
  try (left; reflexivity); try (right; left; reflexivity); try (right; right; left; reflexivity).
  - right; right; right; left. split; [now apply String.eqb_eq|reflexivity].
  - right; right; right; right. split; [now apply String.eqb_eq|reflexivity].
Qed.

End MimeValues.

(** [saveState] changes only the history and [_lastSnapshot]. *)

Lemma saveState_view (e : Editor) :
  options (saveState e) = options e /\ originalImage (saveState e) = originalImage e /\
  masks (saveState e) = masks e /\ active (saveState e) = active e /\
  baseImageScale (saveState e) = baseImageScale e /\ currentScale (saveState e) = currentScale e /\
  currentRotation (saveState e) = currentRotation e /\ maskCounter (saveState e) = maskCounter e /\
  isAnimating (saveState e) = isAnimating e /\ lastMask (saveState e) = lastMask e.
Proof. rewrite EditorFacts.saveState_eq. repeat split. Qed.

Lemma saveState_options e : options (saveState e) = options e.
Proof. apply saveState_view. Qed.

Lemma saveState_originalImage e : originalImage (saveState e) = originalImage e.
Proof. apply saveState_view. Qed.

Lemma saveState_masks e : masks (saveState e) = masks e.
Proof. apply saveState_view. Qed.

Lemma saveState_active e : active (saveState e) = active e.
Proof. apply saveState_view. Qed.

Lemma saveState_baseImageScale e : baseImageScale (saveState e) = baseImageScale e.
Proof. apply saveState_view. Qed.

Lemma saveState_currentScale e : currentScale (saveState e) = currentScale e.
Proof. apply saveState_view. Qed.

Lemma saveState_currentRotation e : currentRotation (saveState e) = currentRotation e.
Proof. apply saveState_view. Qed.

Lemma saveState_maskCounter e : maskCounter (saveState e) = maskCounter e.
Proof. apply saveState_view. Qed.

Lemma saveState_isAnimating e : isAnimating (saveState e) = isAnimating e.
Proof. apply saveState_view. Qed.

Create Rewrite HintDb editor_fields.
#[export] Hint Rewrite saveState_options saveState_originalImage saveState_masks
  saveState_active saveState_baseImageScale saveState_currentScale saveState_currentRotation
  saveState_maskCounter saveState_isAnimating : editor_fields.

(** Running a rotation to its end on an idle editor with an image. *)

Lemma runToEnd_rotate (d : Q) (e : Editor) (img : FImage) :
  originalImage e = Some img -> isAnimating e = false ->
  let e' := runToEnd (RotateJob d) e in
  originalImage e' = Some (mkImage (img_width img) (img_height img) (img_element img)
                             (img_scale img) d) /\
  currentRotation e' = d /\ currentScale e' = currentScale e /\
  baseImageScale e' = baseImageScale e /\ masks e' = masks e /\ active e' = active e /\
  isAnimating e' = false /\ options e' = options e /\ maskCounter e' = maskCounter e.
Proof.
  intros Hi Ha. unfold runToEnd, runJob, rotateImageImpl. rewrite Hi, Ha.
  cbn [fst snd]. unfold rotateDone. simpl. rewrite Hi.
  autorewrite with editor_fields. simpl. repeat split.
Qed.

Lemma runToEnd_scale (f : Q) (e : Editor) (img : FImage) :
  originalImage e = Some img -> isAnimating e = false ->
  let f' := js_max (minScale (options e)) (js_min (maxScale (options e)) f) in
  let e' := runToEnd (ScaleJob f) e in
  originalImage e' = Some (mkImage (img_width img) (img_height img) (img_element img)
                             (baseImageScale e * f') (img_angle img)) /\
  currentScale e' = f' /\ currentRotation e' = currentRotation e /\
  baseImageScale e' = baseImageScale e /\ masks e' = masks e /\ active e' = active e /\
  isAnimating e' = false /\ options e' = options e /\ maskCounter e' = maskCounter e.
Proof.
  intros Hi Ha. unfold runToEnd, runJob, scaleImageImpl. rewrite Hi, Ha.
  cbn [fst snd]. unfold scaleDone. simpl. rewrite Hi.
  autorewrite with editor_fields. simpl. repeat split.
Qed.

Lemma Qle_bool_false (a b : Q) : Qle_bool a b = false -> b < a.
Proof.
  intros H. apply Qnot_le_lt. intros H'. apply Qle_bool_iff in H'. congruence.
Qed.

Lemma js_clamp_in (lo hi f : Q) : lo <= f -> f <= hi -> js_max lo (js_min hi f) == f.
Proof.
  intros H1 H2. unfold js_max, js_min.
  destruct (Qle_bool hi f) eqn:E1;
    [apply Qle_bool_iff in E1 | apply Qle_bool_false in E1];
  match goal with |- context [Qle_bool ?a ?b] =>
    destruct (Qle_bool a b) eqn:E2;
    [apply Qle_bool_iff in E2 | apply Qle_bool_false in E2] end; lra.
Qed.

(** [dbl] depends only on the value of its argument, and keeps an exact
    double as it is. *)
Lemma dbl_Qeq (x y : Q) : x == y -> dbl x = dbl y.
Proof. intros H. unfold dbl. now rewrite (Qred_complete x y H). Qed.

Lemma round_ne_exact (q D : Z) : (0 < D)%Z -> round_ne (q * D) D = q.
Proof.
  intros HD. unfold round_ne. rewrite Z.div_mul, Z_mod_mult by lia.
  replace (2 * 0)%Z with 0%Z by lia.
  destruct (Z.compare_spec 0 D); [lia | reflexivity | lia].
Qed.

Lemma dbl_exact (x : Q) : small_dyadic x = true -> dbl x == x.
Proof.
  unfold small_dyadic, dbl. intros H.
  apply Qeq_trans with (Qred x); [|apply Qred_correct].
  revert H. destruct (Qred x) as [n d]. cbn [Qnum Qden]. intros H.
  apply andb_true_iff in H as [H Hk]. apply andb_true_iff in H as [Ha Hd].
  apply Z.ltb_lt in Ha. apply Z.eqb_eq in Hd. apply Z.leb_le in Hk.
  set (k := Z.log2 (Zpos d)) in *.
  assert (Hk0 : (0 <= k)%Z) by apply Z.log2_nonneg.
  destruct (Z.eqb_spec (Z.abs n) 0) as [A0|A0].
  { unfold Qeq. simpl. lia. }
  set (a := Z.abs n) in *.
  assert (Hla : (Z.log2 a < 53)%Z) by (apply Z.log2_lt_pow2; lia).
  set (L0 := (Z.log2 a - k)%Z).
  set (L := if pow2_ge a (Zpos d) L0 then L0 else (L0 - 1)%Z).
  assert (HL : (L <= L0)%Z) by (subst L; destruct (pow2_ge _ _ _); lia).
  set (e := Z.max (-1074) (L - 52)).
  assert (He : (e <= - k)%Z) by (subst e; lia).
  set (v := if (0 <=? e)%Z then inject_Z (round_ne a (Zpos d * 2 ^ e) * 2 ^ e)
            else Qmake (round_ne (a * 2 ^ (- e)) (Zpos d)) (Z.to_pos (2 ^ (- e)))).
  assert (Hv : v == Qmake a d).
  { subst v. destruct (Z.leb_spec 0 e) as [E|E].
    - assert (E0 : e = 0%Z) by lia. assert (K0 : k = 0%Z) by lia.
      rewrite E0, Hd, K0. cbn -[round_ne].
      rewrite Z.mul_1_r. replace a with (a * 1)%Z at 1 by lia.
      rewrite round_ne_exact by lia.
      assert (D1 : Zpos d = 1%Z) by (rewrite Hd, K0; reflexivity).
      unfold Qeq, inject_Z. cbn [Qnum Qden]. rewrite D1. lia.
    - assert (Hj : (a * 2 ^ (- e) = (a * 2 ^ (- e - k)) * Zpos d)%Z).
      { rewrite Hd, <- Z.mul_assoc, <- Z.pow_add_r by lia. f_equal. f_equal. lia. }
      rewrite Hj, round_ne_exact by lia.
      unfold Qeq. simpl. rewrite Z2Pos.id by (apply Z.pow_pos_nonneg; lia).
      rewrite <- Z.mul_assoc, Hd, <- Z.pow_add_r by lia.
      replace (- e - k + k)%Z with (- e)%Z by lia. reflexivity. }
  destruct (Z.ltb_spec n 0) as [N|N].
  - rewrite Hv. unfold Qeq, Qopp. simpl. subst a. lia.
  - rewrite Hv. unfold Qeq. simpl. subst a. lia.
Qed.

Lemma loadFromState_view (s : Snapshot) (e : Editor) :
  options (loadFromState s e) = options e /\
  baseImageScale (loadFromState s e) = baseImageScale e /\
  currentScale (loadFromState s e) = currentScale e /\
  currentRotation (loadFromState s e) = currentRotation e /\
  isAnimating (loadFromState s e) = isAnimating e.
Proof. unfold loadFromState. destruct (snap_image s); repeat split. Qed.

Lemma saveState_history_shape (x : Editor) :
  HistoryManager.cursor_ok (historyManager x) ->
  (1 <= HistoryManager.maxSize (historyManager x))%Z ->
  HistoryManager.canUndo (historyManager (saveState x)) = true /\
  HistoryManager.canRedo (historyManager (saveState x)) = false.
Proof.
  intros Hok Hmax. rewrite EditorFacts.saveState_eq. cbn [historyManager set_lastSnapshot set_history].
  match goal with |- context [HistoryManager.execute cmd_execute ?c ?h ?e] =>
    destruct (HistoryManagerFacts.execute_shape cmd_execute c h e Hok) as (M & Ci & Ev & No) end.
  unfold HistoryManager.cursor_ok in Hok.
  unfold HistoryManager.canUndo, HistoryManager.canRedo. split.
  - apply Z.leb_le. destruct (Z.le_gt_cases (HistoryManager.currentIndex (historyManager x) + 2)
                                (HistoryManager.maxSize (historyManager x))); [rewrite No | rewrite Ev]; lia.
  - apply Z.ltb_ge. lia.
Qed.

Lemma addMask_shape (cfg : MaskConfig) (e : Editor) :
  let e' := fst (addMask cfg e) in
  let m := snd (addMask cfg e) in
  maskId m = (maskCounter e + 1)%Z /\ maskCounter e' = (maskCounter e + 1)%Z /\
  masks e' = map (restyle (Some (maskId m))) (masks e ++ [m]) /\
  active e' = (if value_or (cfg_selectable cfg) true then Some (maskId m) else active e) /\
  originalImage e' = originalImage e /\ stroke m = Some "#ccc"%string /\ strokeWidth m = 1 /\
  opacity m = originalAlpha m /\ lastMask e' = Some m.
Proof.
  unfold addMask. destruct (placement cfg (lastMask e)) as [l t].
  cbn [fst snd]. rewrite EditorFacts.saveState_eq.
  destruct (value_or (cfg_selectable cfg) true); cbn; repeat split.
Qed.

Lemma in_map_restyle (sel : option Z) (ms : list Mask) (m : Mask) :
  In m (map (restyle sel) ms) ->
  stroke m = Some (match sel with
                   | Some i => if Z.eqb (maskId m) i then "#ff0000" else "#ccc"
                   | None => "#ccc" end)%string /\ strokeWidth m = 1.
Proof.
  intros H. apply in_map_iff in H as [x [<- _]]. unfold restyle. cbn. split; reflexivity.
Qed.

Lemma map_filter_comm {A B} (f : A -> B) (p : B -> bool) (l : list A) :
  map f (filter (fun x => p (f x)) l) = filter p (map f l).
Proof. induction l as [|x r IH]; simpl; [reflexivity|]. destruct (p (f x)); simpl; congruence. Qed.

Lemma restoreFrom_agrees (m x : Mask) : agrees m x -> restoreFrom m x = m.
Proof.
  intros (I & L & T & W & H & S & O). unfold restoreFrom. rewrite I, Z.eqb_refl.
  destruct m; cbn in *. congruence.
Qed.

Lemma restoreFrom_other (b x : Mask) : maskId x <> maskId b -> restoreFrom b x = x.
Proof. intros H. unfold restoreFrom. apply Z.eqb_neq in H. now rewrite H. Qed.

Lemma fold_restore_map (backup ms : list Mask) :
  restoreMasks backup ms = map (fun x => fold_left (fun y b => restoreFrom b y) backup x) ms.
Proof.
  unfold restoreMasks. revert ms. induction backup as [|b r IH]; intros ms; cbn.
  - symmetry. apply map_id.
  - rewrite IH, map_map. reflexivity.
Qed.

Lemma fold_restore_others (backup : list Mask) (x : Mask) :
  Forall (fun b => maskId b <> maskId x) backup ->
  fold_left (fun y b => restoreFrom b y) backup x = x.
Proof.
  induction 1 as [|b r Hb _ IH]; cbn; [reflexivity|].
  rewrite restoreFrom_other by congruence. exact IH.
Qed.

Lemma fold_restore_one (backup : list Mask) (m x : Mask) :
  NoDup (map maskId backup) -> In m backup -> agrees m x ->
  fold_left (fun y b => restoreFrom b y) backup x = m.
Proof.
  induction backup as [|b r IH]; cbn; intros Nd Hin Ag; [contradiction|].
  inversion Nd as [|i is Hni Nd' Eq]; subst.
  destruct (Z.eq_dec (maskId x) (maskId b)) as [E|E].
  - assert (Mb : m = b).
    { destruct Hin as [->|Hin]; [reflexivity|].
      exfalso. apply Hni. destruct Ag as [I _]. rewrite <- E, I. now apply in_map. }
    subst b. rewrite restoreFrom_agrees by exact Ag.
    apply fold_restore_others. apply Forall_forall. intros b' Hb' Eb.
    apply Hni. rewrite <- Eb. now apply in_map.
  - rewrite restoreFrom_other by exact E. apply IH; [exact Nd'| |exact Ag].
    destruct Hin as [<-|Hin]; [|exact Hin]. exfalso. apply E. apply Ag.
Qed.

Lemma map_fold_restore (pre ms xs : list Mask) :
  NoDup (map maskId pre) -> Forall2 agrees ms xs -> (forall m, In m ms -> In m pre) ->
  map (fun x => fold_left (fun y b => restoreFrom b y) pre x) xs = ms.
Proof.
  intros Ndp F. induction F as [|m x ms' xs' A F IH]; intros Sub; cbn; [reflexivity|].
  f_equal.
  - apply fold_restore_one; [exact Ndp | apply Sub; left; reflexivity | exact A].
  - apply IH. intros m' H. apply Sub. right. exact H.
Qed.

Lemma restoreMasks_agreeing (ms xs : list Mask) :
  NoDup (map maskId ms) -> Forall2 agrees ms xs -> restoreMasks ms xs = ms.
Proof.
  intros Nd F. rewrite fold_restore_map. apply map_fold_restore; auto.
Qed.

Lemma agrees_forceOpaque_restyle (sel : option Z) (m : Mask) :
  agrees m (forceOpaque (restyle sel m)).
Proof. unfold agrees, forceOpaque, restyle. cbn. repeat split. Qed.

Lemma agrees_forceOpaque (m : Mask) : agrees m (forceOpaque m).
Proof. unfold agrees, forceOpaque. cbn. repeat split. Qed.

Lemma Forall2_map_r {A B} (R : A -> B -> Prop) (f : A -> B) (l : list A) :
  (forall a, R a (f a)) -> Forall2 R l (map f l).
Proof. intros H. induction l; constructor; auto. Qed.

Lemma runToEnd_native (j : Job) (e : Editor) :
  native (runToEnd j e) = native e /\ maskCounter (runToEnd j e) = maskCounter e.
Proof.
  unfold native. destruct (originalImage e) as [img|] eqn:Hi.
  - destruct (isAnimating e) eqn:Ha.
    + destruct j; unfold runToEnd, runJob, scaleImageImpl, rotateImageImpl; rewrite Hi, Ha;
        cbn; rewrite Hi; split; reflexivity.
    + destruct j as [f|d].
      * destruct (runToEnd_scale f e img Hi Ha) as (A & _ & _ & _ & _ & _ & _ & _ & C).
        rewrite A, C. split; reflexivity.
      * destruct (runToEnd_rotate d e img Hi Ha) as (A & _ & _ & _ & _ & _ & _ & _ & C).
        rewrite A, C. split; reflexivity.
  - destruct j; unfold runToEnd, runJob, scaleImageImpl, rotateImageImpl; rewrite Hi;
      cbn; rewrite Hi; split; reflexivity.
Qed.

Lemma edit_step_native (e e' : Editor) :
  edit_step e e' -> native e' = native e /\ (maskCounter e <= maskCounter e')%Z.
Proof.
  unfold native. intros S. destruct S as [cfg e|e|e|j e|e|br opts crop e].
  - destruct (addMask_shape cfg e) as (_ & C & _ & _ & I & _). rewrite C, I. split; [reflexivity|lia].
  - unfold removeSelectedMask. destruct (active e) as [id|] eqn:Ha; [|split; [reflexivity|lia]].
    rewrite saveState_originalImage, saveState_maskCounter. unfold discardActiveObject.
    cbn. rewrite Ha. cbn. split; [reflexivity|lia].
  - unfold removeAllMasks, discardActiveObject. rewrite saveState_originalImage, saveState_maskCounter.
    cbn. destruct (active _); cbn; split; [reflexivity|lia|reflexivity|lia].
  - destruct (runToEnd_native j e) as [A C]. unfold native in A. rewrite A, C. split; [reflexivity|lia].
  - unfold reset. destruct (originalImage e) eqn:Hi; [|rewrite Hi; split; [reflexivity|lia]].
    rewrite saveState_originalImage, saveState_maskCounter.
    destruct (runToEnd_native (ScaleJob 1) e) as [A1 C1].
    destruct (runToEnd_native (RotateJob 0) (runToEnd (ScaleJob 1) e)) as [A2 C2].
    unfold native in A1, A2. rewrite A2, A1, C2, C1, Hi. split; [reflexivity|lia].
  - destruct (MaskIdFacts.getImageBase64_same br opts crop e) as [(_ & C & I) _].
    rewrite C, I. split; [reflexivity|lia].
Qed.

End ExtraFacts.

Module Extras.
Import ImageEditor EditorExtras ExtraFacts.
Local Open Scope Q_scope.

Section HistoryProperties.
Local Open Scope Z_scope.

(** X4: in every state a [HistoryManager] reaches, the history holds at
    most [maxSize] commands; when it is full with the cursor on the newest
    entry, [execute] drops the oldest command and appends the new one.  With
    [maxSize = 0] every command is dropped at once. *)
Theorem history_bounded {E C : Type} (ce : C -> E -> E * C) (cu : C -> E -> E)
  (h : HistoryManager.t C) (e : E) (c : C) :
  HistoryManager.reachable ce cu h e ->
  Z.of_nat (length (HistoryManager.history h)) <= HistoryManager.maxSize h /\
  (Z.of_nat (length (HistoryManager.history h)) = HistoryManager.maxSize h ->
   HistoryManager.currentIndex h = Z.of_nat (length (HistoryManager.history h)) - 1 ->
   HistoryManager.history (fst (HistoryManager.execute ce c h e)) =
   tl (HistoryManager.history h ++ [snd (ce c e)])).
Proof.
  intros R. split; [apply (history_bounded_gen ce cu h e R)|].
  intros Full AtEnd. unfold HistoryManager.execute. destruct (ce c e) as [e1 c1]. simpl.
  rewrite AtEnd, Z.ltb_irrefl. rewrite length_app. simpl.
  destruct (Z.gtb_spec (Z.of_nat (length (HistoryManager.history h) + 1))
              (HistoryManager.maxSize h)); [reflexivity | lia].
Qed.

Lemma history_bounded_witness :
  HistoryManager.reachable (fun (c : nat) (e : unit) => (e, c)) (fun _ e => e)
    (HistoryManager.create 0) tt /\
  HistoryManager.history
    (fst (HistoryManager.execute (fun (c : nat) (e : unit) => (e, c)) 5%nat
            (HistoryManager.create 0) tt)) = [].
Proof.
  assert (R : HistoryManager.reachable (fun (c : nat) (e : unit) => (e, c)) (fun _ e => e)
                (HistoryManager.create 0) tt) by (apply HistoryManager.reach_create; lia).
  split; [exact R|].
  rewrite (proj2 (history_bounded _ _ _ tt 5%nat R) eq_refl eq_refl). reflexivity.
Defined.

(** X5: in every state a [HistoryManager] reaches, [undo()] and [redo()]
    never hit an [undefined] slot (they never throw).  After an [undo()]
    that moved the cursor, [canRedo()] is true, and a [redo()] right after
    puts the cursor back and keeps the history length. *)
Theorem undo_redo_total {E C : Type} (ce : C -> E -> E * C) (cu : C -> E -> E)
  (h : HistoryManager.t C) (e : E) :
  HistoryManager.reachable ce cu h e ->
  (exists r, HistoryManager.undo cu h e = Some r) /\
  (exists r, HistoryManager.redo ce h e = Some r) /\
  (HistoryManager.canUndo h = true ->
   exists h1 e1 h2 e2,
     HistoryManager.undo cu h e = Some (h1, e1) /\
     HistoryManager.canRedo h1 = true /\
     HistoryManager.redo ce h1 e1 = Some (h2, e2) /\
     HistoryManager.currentIndex h2 = HistoryManager.currentIndex h /\
     length (HistoryManager.history h2) = length (HistoryManager.history h)).
Proof.
  intros R. pose proof (HistoryManagerFacts.reachable_cursor_ok ce cu h e R) as Hok.
  unfold HistoryManager.cursor_ok in Hok.
  unfold HistoryManager.undo, HistoryManager.redo, HistoryManager.canUndo, HistoryManager.canRedo.
  repeat split.
  - destruct (Z.leb_spec 0 (HistoryManager.currentIndex h)); [|eauto].
    destruct (js_index_some (HistoryManager.history h) (HistoryManager.currentIndex h))
      as [x ->]; [lia|eauto].
  - destruct (Z.ltb_spec (HistoryManager.currentIndex h)
                (Z.of_nat (length (HistoryManager.history h)) - 1)); [|eauto].
    destruct (js_index_some (HistoryManager.history h) (HistoryManager.currentIndex h + 1))
      as [x ->]; [lia|].
    destruct (ce x e); eauto.
  - intros Hc. apply Z.leb_le in Hc. rewrite (proj2 (Z.leb_le _ _) Hc).
    destruct (js_index_some (HistoryManager.history h) (HistoryManager.currentIndex h))
      as [x Hx]; [lia|]. rewrite Hx.
    exists (HistoryManager.mk (HistoryManager.history h) (HistoryManager.currentIndex h - 1)
              (HistoryManager.maxSize h)), (cu x e).
    cbn [HistoryManager.history HistoryManager.currentIndex HistoryManager.maxSize
         HistoryManager.redo].
    destruct (Z.ltb_spec (HistoryManager.currentIndex h - 1)
                (Z.of_nat (length (HistoryManager.history h)) - 1)); [|lia].
    replace (HistoryManager.currentIndex h - 1 + 1) with (HistoryManager.currentIndex h) by lia.
    rewrite Hx. destruct (ce x (cu x e)) as [e2 c2].
    do 2 eexists. split; [reflexivity|]. split; [reflexivity|]. split; [reflexivity|].
    split; [reflexivity|]. apply replace_nth_length.
Qed.

Lemma undo_redo_total_witness :
  HistoryManager.reachable (fun (c : nat) (e : unit) => (e, c)) (fun _ e => e)
    (fst (HistoryManager.execute (fun (c : nat) (e : unit) => (e, c)) 7%nat
            (HistoryManager.create 3) tt)) tt /\
  HistoryManager.canUndo
    (fst (HistoryManager.execute (fun (c : nat) (e : unit) => (e, c)) 7%nat
            (HistoryManager.create 3) tt)) = true /\
  exists r, HistoryManager.redo (fun (c : nat) (e : unit) => (e, c))
              (fst (HistoryManager.execute (fun (c : nat) (e : unit) => (e, c)) 7%nat
                      (HistoryManager.create 3) tt)) tt = Some r.
Proof.
  assert (R : HistoryManager.reachable (fun (c : nat) (e : unit) => (e, c)) (fun _ e => e)
                (fst (HistoryManager.execute (fun (c : nat) (e : unit) => (e, c)) 7%nat
                        (HistoryManager.create 3) tt)) tt).
  { refine (HistoryManager.reach_execute _ _ (HistoryManager.create 3) tt 7%nat _).
    apply HistoryManager.reach_create. lia. }
  split; [exact R|]. split; [reflexivity|].
  exact (proj1 (proj2 (undo_redo_total _ _ _ tt R))).
Defined.

End HistoryProperties.

(** X1: [_updateCanvasSizeToImageBounds] does nothing without an image;
    with one, the canvas it sets is at least 1x1, at least the container's
    rounded-up size and at least the floor of the image's bounding box. *)
Theorem canvas_size_covers (br : FImage -> Q * Q * Q * Q) (container : option (Q * Q))
  (e : Editor) :
  match originalImage e with
  | None => updateCanvasSizeToImageBounds br container e = None
  | Some img =>
      exists W H, updateCanvasSizeToImageBounds br container e = Some (W, H) /\
        (1 <= W)%Z /\ (1 <= H)%Z /\
        (fst (containerCeil container) <= W)%Z /\ (snd (containerCeil container) <= H)%Z /\
        (Qfloor (snd (fst (br img))) <= W)%Z /\ (Qfloor (snd (br img)) <= H)%Z
  end.
Proof.
  unfold updateCanvasSizeToImageBounds.
  destruct (originalImage e) as [img|]; [|reflexivity].
  destruct (br img) as [[[l t] bw] bh]. destruct (containerCeil container) as [cW cH].
  cbn [fst snd].
  destruct ((0 <? cW)%Z && (0 <? cH)%Z && Qle_bool bw (inject_Z cW) && Qle_bool bh (inject_Z cH))
    eqn:C.
  - apply andb_true_iff in C as [C C4]. apply andb_true_iff in C as [C C3].
    apply andb_true_iff in C as [C1 C2].
    apply Z.ltb_lt in C1. apply Z.ltb_lt in C2.
    apply Qle_bool_iff in C3. apply Qle_bool_iff in C4.
    rewrite setCanvasSizeInt_Z by lia. exists cW, cH.
    apply Qfloor_resp_le in C3. apply Qfloor_resp_le in C4. rewrite Qfloor_Z in C3, C4.
    repeat split; lia.
  - destruct (setCanvasSizeInt_ge (Z.max cW (Qfloor bw)) (Z.max cH (Qfloor bh))) as [G1 G2].
    destruct (setCanvasSizeInt (inject_Z (Z.max cW (Qfloor bw))) (inject_Z (Z.max cH (Qfloor bh))))
      as [W H] eqn:E.
    exists W, H. cbn [fst snd] in G1, G2. repeat split; lia.
Qed.

Lemma canvas_size_covers_witness :
  updateCanvasSizeToImageBounds example_boundingRect (Some (900, 700)) (create default_options)
    = None /\
  exists W H, updateCanvasSizeToImageBounds example_boundingRect (Some (900, 700)) example_editor
                = Some (W, H) /\ (1000 <= W)%Z /\ (900 <= W)%Z.
Proof.
  split; [exact (canvas_size_covers example_boundingRect (Some (900, 700)) (create default_options))|].
  pose proof (canvas_size_covers example_boundingRect (Some (900, 700)) example_editor) as P.
  change (originalImage example_editor) with (Some (mkImage 1000 800 true 1 0)) in P.
  destruct P as (W & H & E & _ & _ & C & _ & F & _).
  exists W, H. vm_compute in C, F. split; [exact E|]. split; assumption.
Defined.

(** X2: for an image and a canvas of whole, positive pixel sizes, the
    [fromURL] callback of [loadImage] gives the image a scale in (0, 1]
    and sets [baseImageScale] to it, in every mode and with or without a
    container; with [expandCanvasToImage] (and not [fitImageToCanvas]) the
    canvas it sets covers the image; and whenever the image is no larger
    than that canvas, the scale is 1 and the image lies inside the canvas
    at non-negative offsets. *)
Theorem loaded_image_fits (o : Options) (container : option (Q * Q)) (w h cw ch : Z) :
  (1 <= w)%Z -> (1 <= h)%Z -> (1 <= cw)%Z -> (1 <= ch)%Z ->
  canvasWidth o = inject_Z cw -> canvasHeight o = inject_Z ch ->
  let L := loadImageLayout o container (inject_Z w) (inject_Z h) in
  0 < lay_scale L <= 1 /\ lay_base L == lay_scale L /\
  (fitImageToCanvas o = false -> expandCanvasToImage o = true ->
   (w <= fst (lay_canvas L) /\ h <= snd (lay_canvas L))%Z) /\
  ((w <= fst (lay_canvas L) /\ h <= snd (lay_canvas L))%Z ->
   lay_scale L == 1 /\ 0 <= lay_left L /\ 0 <= lay_top L /\
   lay_left L + inject_Z w <= inject_Z (fst (lay_canvas L)) /\
   lay_top L + inject_Z h <= inject_Z (snd (lay_canvas L))).
Proof.
  intros Hw Hh Hcw Hch Ecw Ech. cbv zeta.
  assert (Hmin : exists mw mh,
    (match container with
     | Some (cw0, _) => inject_Z (Qfloor (js_or cw0 (canvasWidth o)))
     | None => canvasWidth o end) = inject_Z mw /\
    (match container with
     | Some (_, ch0) => inject_Z (Qfloor (js_or ch0 (canvasHeight o)))
     | None => canvasHeight o end) = inject_Z mh).
  { destruct container as [[a b]|]; eauto. }
  destruct Hmin as (mw & mh & Emw & Emh).
  unfold loadImageLayout. rewrite Emw, Emh, Ecw, Ech, !js_max_Z.
  destruct (fitLayout_fits (Z.max cw mw) (Z.max ch mh) w h) as (F1 & F2 & F3); try lia.
  destruct (fitImageToCanvas o).
  { split; [exact F1|]. split; [exact F2|]. split; [discriminate | exact F3]. }
  destruct (expandCanvasToImage o).
  2: { split; [exact F1|]. split; [exact F2|]. split; [discriminate | exact F3]. }
  rewrite !Qfloor_Z, setCanvasSizeInt_Z by lia.
  cbn [lay_canvas lay_left lay_top lay_scale lay_base fst snd].
  assert (Aw : inject_Z w <= inject_Z (Z.max mw w)) by (rewrite <- Zle_Qle; lia).
  assert (Ah : inject_Z h <= inject_Z (Z.max mh h)) by (rewrite <- Zle_Qle; lia).
  split; [split; lra|]. split; [reflexivity|]. split; [intros _ _; lia|].
  intros _. repeat split; lra.
Qed.

Lemma loaded_image_fits_witness :
  canvasWidth default_options = inject_Z 800 /\ canvasHeight default_options = inject_Z 600 /\
  (1000 <= fst (lay_canvas (loadImageLayout default_options None (inject_Z 1000) (inject_Z 800))))%Z /\
  lay_scale (loadImageLayout (mkOptions 800 600 (1 # 10) 5 false true true 4000 3000 1 true 50 80 false)
                             (Some (300, 200)) (inject_Z 400) (inject_Z 300)) == 1.
Proof.
  split; [reflexivity|]. split; [reflexivity|]. split.
  - destruct (loaded_image_fits default_options None 1000 800 800 600
                ltac:(lia) ltac:(lia) ltac:(lia) ltac:(lia) eq_refl eq_refl) as (_ & _ & X & _).
    exact (proj1 (X eq_refl eq_refl)).
  - destruct (loaded_image_fits (mkOptions 800 600 (1 # 10) 5 false true true 4000 3000 1 true 50 80 false)
                (Some (300, 200)) 400 300 800 600
                ltac:(lia) ltac:(lia) ltac:(lia) ltac:(lia) eq_refl eq_refl) as (_ & _ & _ & X).
    refine (proj1 (X _)). vm_compute. split; discriminate.
Defined.

(** X3: with [downsampleOnLoad] on and whole, positive maxima, the raster
    [loadImage] hands to [fromURL] is within [downsampleMaxWidth] x
    [downsampleMaxHeight]; a raster already within both limits is left as
    it is.  A side may round down to 0: with the defaults an 8001x1 image
    becomes 4000x0. *)
Theorem downsample_within_limits (o : Options) (r : Raster) (MW MH : Z) :
  downsampleOnLoad o = true ->
  downsampleMaxWidth o = inject_Z MW -> downsampleMaxHeight o = inject_Z MH ->
  (1 <= r_width r)%Z -> (1 <= r_height r)%Z -> (1 <= MW)%Z -> (1 <= MH)%Z ->
  (0 <= r_width (loadImageSource o r) <= MW)%Z /\
  (0 <= r_height (loadImageSource o r) <= MH)%Z /\
  ((r_width r <= MW)%Z -> (r_height r <= MH)%Z -> loadImageSource o r = r).
Proof.
  intros Hon EW EH Hw Hh HMW HMH. unfold loadImageSource. rewrite Hon, EW, EH, !Qle_bool_Z.
  cbn [andb].
  assert (Qw : 1 <= inject_Z (r_width r)) by (apply Q_one_le_Z; exact Hw).
  assert (Qh : 1 <= inject_Z (r_height r)) by (apply Q_one_le_Z; exact Hh).
  assert (QW : 1 <= inject_Z MW) by (apply Q_one_le_Z; exact HMW).
  assert (QH : 1 <= inject_Z MH) by (apply Q_one_le_Z; exact HMH).
  destruct (Z.leb_spec (r_width r) MW), (Z.leb_spec (r_height r) MH); cbn [negb orb].
  1: { repeat split; intros; try reflexivity; lia. }
  all: set (ratio := js_min (inject_Z MW / inject_Z (r_width r)) (inject_Z MH / inject_Z (r_height r))).
  all: assert (R0 : 0 < ratio) by (apply js_min_pos; apply Qdiv_pos; lra).
  all: assert (RW : inject_Z (r_width r) * ratio <= inject_Z MW)
         by (rewrite <- (Qmult_div_r (inject_Z MW) (inject_Z (r_width r))) by lra;
             apply Qmult_le_l; [lra | apply js_min_le_l]).
  all: assert (RH : inject_Z (r_height r) * ratio <= inject_Z MH)
         by (rewrite <- (Qmult_div_r (inject_Z MH) (inject_Z (r_height r))) by lra;
             apply Qmult_le_l; [lra | apply js_min_le_r]).
  all: assert (PW : inject_Z 0 <= inject_Z (r_width r) * ratio)
         by (apply Qmult_le_0_compat; simpl; lra).
  all: assert (PH : inject_Z 0 <= inject_Z (r_height r) * ratio)
         by (apply Qmult_le_0_compat; simpl; lra).
  all: cbn [r_width r_height].
  all: repeat split; try lia;
       try (apply js_round_ge; assumption); try (apply js_round_le; assumption).
Qed.

Lemma downsample_within_limits_witness :
  downsampleOnLoad default_options = true /\
  loadImageSource default_options (mkRaster 8001 1) = mkRaster 4000 0 /\
  (0 <= r_height (loadImageSource default_options (mkRaster 8001 1)) <= 3000)%Z.
Proof.
  split; [reflexivity|]. split; [vm_compute; reflexivity|].
  destruct (downsample_within_limits default_options (mkRaster 8001 1) 4000 3000)
    as (_ & H & _); try reflexivity; try (cbn; lia); exact H.
Defined.

Section MimeTypes.
Local Open Scope string_scope.

(** X6: the type of the [File] that [exportImageFile] returns does not
    depend on the letter case of [fileType], and it is [image/jpeg],
    [image/png] or [image/webp], except for the two names [Object.prototype]
    supplies: ["constructor"] gives ["image/function object() { [native
    code] }"] and ["__proto__"] gives ["image/[object object]"] (the [File]
    constructor lower-cases the template string). *)
Theorem exportFile_type_cases (ft : string) :
  exportFileType (toLowerCase ft) = exportFileType ft /\
  (exportFileType ft = "image/jpeg" \/ exportFileType ft = "image/png" \/
   exportFileType ft = "image/webp" \/
   (toLowerCase ft = "constructor" /\
    exportFileType ft = "image/function object() { [native code] }") \/
   (toLowerCase ft = "__proto__" /\ exportFileType ft = "image/[object object]")).
Proof.
  destruct (exportMime_values ft) as (L & M).
  unfold exportFileType. rewrite L. split; [reflexivity|].
  destruct M as [M|[M|[M|[[T M]|[T M]]]]]; rewrite M.
  - left; reflexivity.
  - right; left; reflexivity.
  - right; right; left; reflexivity.
  - right; right; right; left. split; [exact T | reflexivity].
  - right; right; right; right. split; [exact T | reflexivity].
Qed.

End MimeTypes.

(** X7: [reset()] on an idle editor with an image, when 1 lies within
    [[minScale, maxScale]], ends with [currentScale] 1 and [currentRotation]
    0, the image at [baseImageScale] and angle 0 with its native size, the
    masks and the selection untouched, no animation running, and the reset
    button disabled. *)
Theorem reset_restores_view (e : Editor) (img : FImage) :
  originalImage e = Some img -> isAnimating e = false ->
  minScale (options e) <= 1 -> 1 <= maxScale (options e) ->
  let e' := reset e in
  currentScale e' == 1 /\ currentRotation e' == 0 /\ baseImageScale e' = baseImageScale e /\
  (exists img', originalImage e' = Some img' /\ img_width img' = img_width img /\
                img_height img' = img_height img /\
                img_scale img' == baseImageScale e /\ img_angle img' == 0) /\
  masks e' = masks e /\ active e' = active e /\ isAnimating e' = false /\
  resetBtn (updateUI e') = true.
Proof.
  intros Hi Ha Hlo Hhi. unfold reset. rewrite Hi.
  destruct (runToEnd_scale 1 e img Hi Ha) as (S1 & S2 & S3 & S4 & S5 & S6 & S7 & S8 & S9).
  set (e1 := runToEnd (ScaleJob 1) e) in *.
  destruct (runToEnd_rotate 0 e1 _ S1 S7) as (R1 & R2 & R3 & R4 & R5 & R6 & R7 & R8 & R9).
  set (e2 := runToEnd (RotateJob 0) e1) in *.
  pose proof (js_clamp_in _ _ _ Hlo Hhi) as C.
  autorewrite with editor_fields.
  assert (Sc : currentScale e2 == 1) by (rewrite R3, S2; exact C).
  assert (Ro : currentRotation e2 == 0) by (rewrite R2; reflexivity).
  repeat split; try assumption; try congruence.
  - eexists. split; [exact R1|]. cbn. repeat split.
    rewrite C. apply Qmult_1_r.
  - unfold updateUI. rewrite saveState_originalImage, R1, saveState_currentScale,
      saveState_currentRotation, saveState_isAnimating, R7.
    apply Qeq_bool_iff in Sc. apply Qeq_bool_iff in Ro. rewrite Sc, Ro.
    reflexivity.
Qed.

Lemma reset_restores_view_witness :
  originalImage example_transformed = Some (mkImage 1000 800 true 2 90) /\
  currentScale example_transformed == 2 /\
  currentScale (reset example_transformed) == 1 /\
  currentRotation (reset example_transformed) == 0.
Proof.
  split; [vm_compute; reflexivity|]. split; [reflexivity|].
  destruct (reset_restores_view example_transformed (mkImage 1000 800 true 2 90))
    as (A & B & _); [vm_compute; reflexivity | vm_compute; reflexivity
                     | vm_compute; discriminate | vm_compute; discriminate |].
  split; assumption.
Defined.

(** X8: on an idle editor with an image, a click on the rotate-left button
    followed by one on the rotate-right button, both with the same step,
    brings [currentRotation] back and leaves the image at that angle, with
    its scale and size unchanged, when the rotation and the rotated-left
    angle [currentRotation - step] are exact doubles of at most 53
    significant bits (so the double subtraction and addition are exact). *)
Theorem rotate_buttons_inverse (inL inR : option Q) (step : Q) (e : Editor) (img : FImage) :
  originalImage e = Some img -> isAnimating e = false ->
  rotationStepFrom inL step == rotationStepFrom inR step ->
  small_dyadic (currentRotation e) = true ->
  small_dyadic (currentRotation e - rotationStepFrom inL step) = true ->
  let e1 := runToEnd (rotateLeftJob inL step e) e in
  let e2 := runToEnd (rotateRightJob inR step e1) e1 in
  currentRotation e2 == currentRotation e /\
  exists img', originalImage e2 = Some img' /\ img_angle img' == currentRotation e /\
               img_scale img' = img_scale img /\ img_width img' = img_width img /\
               img_height img' = img_height img.
Proof.
  intros Hi Ha Hs D0 D1. unfold rotateLeftJob, rotateRightJob.
  set (r1 := dbl (currentRotation e - rotationStepFrom inL step)).
  destruct (runToEnd_rotate r1 e img Hi Ha) as (R1 & R2 & _ & _ & _ & _ & R7 & _).
  set (e1 := runToEnd (RotateJob r1) e) in *.
  assert (E : dbl (currentRotation e1 + rotationStepFrom inR step) == currentRotation e).
  { rewrite R2, (dbl_Qeq _ (currentRotation e)); [apply dbl_exact, D0|].
    unfold r1. rewrite dbl_exact by exact D1. rewrite Hs. ring. }
  destruct (runToEnd_rotate (dbl (currentRotation e1 + rotationStepFrom inR step)) e1 _ R1 R7)
    as (T1 & T2 & _).
  split; [rewrite T2; exact E|].
  eexists. split; [exact T1|]. cbn. repeat split. exact E.
Qed.

Lemma rotate_buttons_inverse_witness :
  isAnimating example_editor = false /\
  currentRotation (runToEnd (rotateRightJob None 90
                               (runToEnd (rotateLeftJob None 90 example_editor) example_editor))
                     (runToEnd (rotateLeftJob None 90 example_editor) example_editor)) == 0.
Proof.
  split; [reflexivity|].
  destruct (rotate_buttons_inverse None None 90 example_editor (mkImage 1000 800 true 1 0))
    as (A & _); [vm_compute; reflexivity | reflexivity | reflexivity
                 | vm_compute; reflexivity | vm_compute; reflexivity |].
  exact A.
Defined.

(** X9: on an idle editor with an image, a click on the zoom-in button
    followed by one on the zoom-out button brings [currentScale] back and
    keeps the image's angle, when both the current scale and the zoomed-in
    one lie within [[minScale, maxScale]] and are exact doubles of at most
    53 significant bits (so the double addition and subtraction are
    exact). *)
Theorem zoom_buttons_inverse (step : Q) (e : Editor) (img : FImage) :
  originalImage e = Some img -> isAnimating e = false ->
  minScale (options e) <= currentScale e <= maxScale (options e) ->
  minScale (options e) <= currentScale e + step <= maxScale (options e) ->
  small_dyadic (currentScale e) = true ->
  small_dyadic (currentScale e + step) = true ->
  let e1 := runToEnd (zoomInJob step e) e in
  let e2 := runToEnd (zoomOutJob step e1) e1 in
  currentScale e2 == currentScale e /\
  exists img', originalImage e2 = Some img' /\ img_angle img' = img_angle img.
Proof.
  intros Hi Ha [H1 H2] [H3 H4] D0 D1. unfold zoomInJob, zoomOutJob.
  set (s1 := dbl (currentScale e + step)).
  assert (Q1 : s1 == currentScale e + step) by (apply dbl_exact, D1).
  destruct (runToEnd_scale s1 e img Hi Ha) as (S1 & S2 & _ & _ & _ & _ & S7 & S8 & _).
  set (e1 := runToEnd (ScaleJob s1) e) in *.
  assert (C1 : currentScale e1 == currentScale e + step).
  { rewrite S2, js_clamp_in; [exact Q1 | rewrite Q1; exact H3 | rewrite Q1; exact H4]. }
  assert (E : dbl (currentScale e1 - step) == currentScale e).
  { rewrite (dbl_Qeq _ (currentScale e)); [apply dbl_exact, D0 | rewrite C1; ring]. }
  destruct (runToEnd_scale (dbl (currentScale e1 - step)) e1 _ S1 S7) as (T1 & T2 & _).
  assert (C2 : js_max (minScale (options e1)) (js_min (maxScale (options e1))
                 (dbl (currentScale e1 - step))) == currentScale e).
  { rewrite S8, js_clamp_in; [exact E | rewrite E; exact H1 | rewrite E; exact H2]. }
  split; [rewrite T2; exact C2|].
  eexists. split; [exact T1|]. reflexivity.
Qed.

Lemma zoom_buttons_inverse_witness :
  isAnimating example_editor = false /\
  currentScale (runToEnd (zoomOutJob (1 # 2)
                            (runToEnd (zoomInJob (1 # 2) example_editor) example_editor))
                  (runToEnd (zoomInJob (1 # 2) example_editor) example_editor)) == 1.
Proof.
  split; [reflexivity|].
  destruct (zoom_buttons_inverse (1 # 2) example_editor (mkImage 1000 800 true 1 0))
    as (A & _); [vm_compute; reflexivity | reflexivity
                 | split; vm_compute; discriminate | split; vm_compute; discriminate
                 | vm_compute; reflexivity | vm_compute; reflexivity |].
  exact A.
Defined.

(** X10: [undo()] and [redo()] reload a snapshot but never touch
    [currentScale], [currentRotation], [baseImageScale], [isAnimating] or
    the options.  So after undoing a zoom the image is back at its old
    scale while [currentScale] still holds the zoomed value. *)
Theorem undo_redo_keep_view (e e' : Editor) :
  undo e = Some e' \/ redo e = Some e' ->
  currentScale e' = currentScale e /\ currentRotation e' = currentRotation e /\
  baseImageScale e' = baseImageScale e /\ isAnimating e' = isAnimating e /\
  options e' = options e.
Proof.
  intros [U|U].
  - unfold undo, HistoryManager.undo in U.
    destruct (0 <=? _)%Z.
    + destruct (js_index _ _) as [c|]; [|discriminate]. inversion U; subst. cbn.
      unfold cmd_undo. destruct (loadFromState_view (before c) e) as (A & B & C & D & F).
      repeat split; assumption.
    + inversion U; subst. repeat split.
  - unfold redo, HistoryManager.redo in U.
    destruct (_ <? _)%Z.
    + destruct (js_index _ _) as [c|]; [|discriminate].
      unfold cmd_execute in U. cbn in U. inversion U; subst. cbn.
      destruct (executedOnce c); [|repeat split].
      destruct (loadFromState_view (after c) e) as (A & B & C & D & F).
      repeat split; assumption.
    + inversion U; subst. repeat split.
Qed.

Lemma undo_redo_keep_view_witness :
  exists e', undo example_scaled = Some e' /\ currentScale e' == 2 /\
             option_map img_scale (originalImage e') = Some 1.
Proof.
  destruct (undo example_scaled) as [x|] eqn:U; [|vm_compute in U; discriminate].
  exists x. split; [reflexivity|]. split.
  - destruct (undo_redo_keep_view example_scaled x (or_introl U)) as (S & _).
    rewrite S. vm_compute. reflexivity.
  - vm_compute in U. injection U as <-. vm_compute. reflexivity.
Defined.

(** X11: on an idle editor with an image, once a scale or rotate operation
    has started its animation [_updateUI] disables every control; once it
    has completed (with a valid history cursor and room for at least one
    entry) undo is enabled, redo is disabled, and adding masks and
    downloading are enabled. *)
Theorem controls_during_and_after_transform (j : Job) (e : Editor) (img : FImage) :
  originalImage e = Some img -> isAnimating e = false ->
  HistoryManager.cursor_ok (historyManager e) ->
  (1 <= HistoryManager.maxSize (historyManager e))%Z ->
  all_disabled (updateUI (fst (runJob j e))) = true /\
  undoBtn (updateUI (runToEnd j e)) = false /\ redoBtn (updateUI (runToEnd j e)) = true /\
  addMaskBtn (updateUI (runToEnd j e)) = false /\ downloadBtn (updateUI (runToEnd j e)) = false.
Proof.
  intros Hi Ha Hok Hmax. split.
  - destruct j; unfold runJob, scaleImageImpl, rotateImageImpl; rewrite Hi, Ha;
      unfold updateUI, all_disabled; cbn; rewrite Hi; cbn; rewrite !orb_true_r; reflexivity.
  - assert (Hn : originalImage e <> None) by congruence.
    destruct (EditorFacts.runToEnd_save j e Hn Ha) as (x & Ex & _ & Hx & Ix & Ax).
    rewrite Ex. rewrite <- Hx in Hok, Hmax.
    destruct (saveState_history_shape x Hok Hmax) as [U R].
    unfold updateUI, canUndo, canRedo. rewrite U, R, saveState_originalImage, saveState_isAnimating, Ax.
    destruct (originalImage x); [|congruence]. cbn. repeat split.
Qed.

Lemma controls_during_and_after_transform_witness :
  isAnimating example_editor = false /\
  all_disabled (updateUI (fst (runJob (ScaleJob 2) example_editor))) = true /\
  undoBtn (updateUI (runToEnd (ScaleJob 2) example_editor)) = false.
Proof.
  split; [reflexivity|].
  destruct (controls_during_and_after_transform (ScaleJob 2) example_editor (mkImage 1000 800 true 1 0))
    as (A & B & _); [vm_compute; reflexivity | reflexivity
                     | unfold HistoryManager.cursor_ok; cbn; lia | cbn; lia |].
  split; assumption.
Defined.

(** X12: [addMask] gives the new mask the id [maskCounter + 1]; afterwards
    that mask is the one with the red selection stroke and every other
    mask has the neutral stroke.  The new mask becomes the active object
    only when [selectable] is not [false]; otherwise the previous active
    object stays active, drawn with the neutral stroke. *)
Theorem addMask_selection (cfg : MaskConfig) (e : Editor) :
  let e' := fst (addMask cfg e) in
  let id := maskId (snd (addMask cfg e)) in
  id = (maskCounter e + 1)%Z /\
  (exists m, In m (masks e') /\ maskId m = id /\ stroke m = Some "#ff0000"%string) /\
  (forall m, In m (masks e') -> maskId m <> id -> stroke m = Some "#ccc"%string) /\
  active e' = (if value_or (cfg_selectable cfg) true then Some id else active e).
Proof.
  destruct (addMask_shape cfg e) as (I & _ & M & A & _).
  set (m := snd (addMask cfg e)) in *. set (e' := fst (addMask cfg e)) in *.
  split; [exact I|]. split; [|split; [|exact A]].
  - exists (restyle (Some (maskId m)) m). rewrite M. split.
    + apply in_map. apply in_or_app. right. left. reflexivity.
    + unfold restyle. cbn. rewrite Z.eqb_refl. split; reflexivity.
  - intros x Hx Hne. rewrite M in Hx. destruct (in_map_restyle _ _ _ Hx) as [S _].
    rewrite S. apply Z.eqb_neq in Hne. rewrite Hne. reflexivity.
Qed.

(** X13: after [addMask] with a selectable config, moving the pointer over
    the new mask and out again leaves it the active object but drawn with
    the neutral ['#ccc'] stroke of width 1 and its [originalAlpha] opacity:
    the [mouseout] handler overwrites the red selection stroke. *)
Theorem hover_clears_selection_stroke (cfg : MaskConfig) (e : Editor) :
  value_or (cfg_selectable cfg) true = true ->
  let e1 := fst (addMask cfg e) in
  let id := maskId (snd (addMask cfg e)) in
  let e2 := mouseout id (mouseover id e1) in
  active e1 = Some id /\ active e2 = Some id /\
  (exists m, In m (masks e2) /\ maskId m = id) /\
  (forall m, In m (masks e2) -> maskId m = id ->
     stroke m = Some "#ccc"%string /\ strokeWidth m = 1 /\ opacity m = originalAlpha m).
Proof.
  intros Hs. destruct (addMask_shape cfg e) as (I & _ & M & A & _).
  rewrite Hs in A. set (m := snd (addMask cfg e)) in *. set (e1 := fst (addMask cfg e)) in *.
  clearbody m e1.
  unfold mouseout, mouseover, on_mask. cbn [masks active set_masks set_scene].
  split; [exact A|]. split; [exact A|]. split.
  - exists (normalStyle (hoverStyle (restyle (Some (maskId m)) m))).
    rewrite M, map_map, map_map. split; [|reflexivity].
    apply in_map_iff. exists m. split.
    + unfold restyle, hoverStyle, normalStyle. cbn. rewrite Z.eqb_refl. cbn.
      rewrite Z.eqb_refl. reflexivity.
    + apply in_or_app. right. left. reflexivity.
  - intros x Hx Hid. rewrite map_map in Hx. apply in_map_iff in Hx as [y [<- _]].
    destruct (Z.eqb (maskId y) (maskId m)) eqn:E.
    + cbn. rewrite E. repeat split.
    + cbn in Hid. rewrite E in Hid. apply Z.eqb_neq in E. contradiction.
Qed.

Lemma hover_clears_selection_stroke_witness :
  value_or (cfg_selectable no_config) true = true /\
  active (mouseout 1 (mouseover 1 (fst (addMask no_config example_editor)))) = Some 1%Z.
Proof.
  split; [reflexivity|].
  destruct (hover_clears_selection_stroke no_config example_editor eq_refl) as (_ & A & _).
  exact A.
Defined.

(** X14: [removeSelectedMask()] does nothing when no mask is selected.
    Otherwise it removes the masks with the selected id, clears the
    selection and gives every remaining mask the neutral stroke; it keeps
    [maskCounter], the image and [_lastMask], so the next [addMask()]
    without [left] is still placed next to the removed mask. *)
Theorem removeSelectedMask_effect (e : Editor) :
  match active e with
  | None => removeSelectedMask e = e
  | Some id =>
      let e' := removeSelectedMask e in
      live_ids e' = filter (fun i => negb (Z.eqb i id)) (live_ids e) /\
      active e' = None /\ maskCounter e' = maskCounter e /\
      originalImage e' = originalImage e /\ lastMask e' = lastMask e /\
      (forall m, In m (masks e') -> stroke m = Some "#ccc"%string)
  end.
Proof.
  unfold removeSelectedMask. destruct (active e) as [id|] eqn:Ha; [|reflexivity].
  unfold discardActiveObject. cbn [active set_masks set_scene]. rewrite Ha.
  rewrite EditorFacts.saveState_eq. cbn. unfold live_ids. cbn.
  repeat split.
  - rewrite map_map. cbn. apply (map_filter_comm maskId (fun i => negb (Z.eqb i id))).
  - intros m Hm. apply (in_map_restyle None) in Hm. apply Hm.
Qed.

(** X15: when [getImageBase64] exports the image area and the crop
    succeeds, every mask is back exactly as before the call (the live mask
    ids being distinct), but the selection is cleared: a mask that was
    selected keeps its red stroke while no object is active. *)
Theorem export_area_restores_masks (br : FImage -> Q * Q * Q * Q) (opts : ExportOptions)
  (e : Editor) (img : FImage) :
  originalImage e = Some img ->
  value_or (exportImageArea opts) (exportImageAreaByDefault (options e)) = true ->
  NoDup (live_ids e) ->
  let e' := fst (getImageBase64 br opts Fulfilled e) in
  masks e' = masks e /\ active e' = None /\ originalImage e' = originalImage e.
Proof.
  intros Hi Ha Nd. unfold getImageBase64. rewrite Hi, Ha. cbn [negb].
  destruct (br img) as [[[l t] w] h]. cbn.
  unfold discardActiveObject. destruct (active e) eqn:Act; cbn.
  - split; [|split; [reflexivity|congruence]].
    apply restoreMasks_agreeing; [exact Nd|].
    rewrite map_map. apply Forall2_map_r. apply agrees_forceOpaque_restyle.
  - split; [|split; [exact Act|congruence]].
    apply restoreMasks_agreeing; [exact Nd|].
    apply Forall2_map_r. apply agrees_forceOpaque.
Qed.

Lemma export_area_restores_masks_witness :
  originalImage (fst (addMask no_config example_editor)) = Some (mkImage 1000 800 true 1 0) /\
  NoDup (live_ids (fst (addMask no_config example_editor))) /\
  masks (fst (getImageBase64 example_boundingRect (mkExportOptions (Some true) None) Fulfilled
                (fst (addMask no_config example_editor))))
  = masks (fst (addMask no_config example_editor)).
Proof.
  assert (Nd : NoDup (live_ids (fst (addMask no_config example_editor)))).
  { vm_compute. constructor; [intros []|constructor]. }
  split; [vm_compute; reflexivity|]. split; [exact Nd|].
  destruct (export_area_restores_masks example_boundingRect (mkExportOptions (Some true) None)
              (fst (addMask no_config example_editor)) (mkImage 1000 800 true 1 0))
    as (A & _); [vm_compute; reflexivity | reflexivity | exact Nd |].
  exact A.
Defined.

(** X16: when [getImageBase64] exports the image area with a multiplier of
    at least 1, the crop it encodes starts at non-negative coordinates and
    is at least 1x1 pixels; when the crop step fails the call rejects. *)
Theorem export_crop_bounds (br : FImage -> Q * Q * Q * Q) (opts : ExportOptions)
  (e : Editor) (img : FImage) (m : Q) :
  originalImage e = Some img ->
  value_or (exportImageArea opts) (exportImageAreaByDefault (options e)) = true ->
  multiplier opts = Some m -> 1 <= m ->
  (exists sx sy sw sh, snd (getImageBase64 br opts Fulfilled e) = Ok (Cropped sx sy sw sh) /\
     (0 <= sx)%Z /\ (0 <= sy)%Z /\ (1 <= sw)%Z /\ (1 <= sh)%Z) /\
  snd (getImageBase64 br opts Rejected e) = Err.
Proof.
  intros Hi Ha Hm H1. unfold getImageBase64. rewrite Hi, Ha, Hm. cbn [negb value_or].
  assert (Jm : js_or m (js_or (exportMultiplier (options e)) 1) = m).
  { unfold js_or. destruct (Qeq_bool m 0) eqn:E; [|reflexivity].
    apply Qeq_bool_iff in E. lra. }
  rewrite Jm. destruct (br img) as [[[l t] w] h]. cbn -[js_round].
  split; [|reflexivity].
  do 4 eexists. split; [reflexivity|].
  assert (P : forall z : Z, (0 <= z)%Z -> (0 <= js_round (inject_Z z * m))%Z).
  { intros z Hz. apply js_round_ge. apply Qmult_le_0_compat; [|lra].
    change 0 with (inject_Z 0). rewrite <- Zle_Qle. exact Hz. }
  assert (Q1 : forall z : Z, (1 <= z)%Z -> (1 <= js_round (inject_Z z * m))%Z).
  { intros z Hz. apply js_round_ge.
    assert (Z1 : inject_Z 1 <= inject_Z z) by (rewrite <- Zle_Qle; exact Hz).
    apply Qle_trans with (inject_Z z * 1); [rewrite Qmult_1_r; exact Z1|].
    apply Qmult_le_l; [|exact H1]. apply Qlt_le_trans with (inject_Z 1); [reflexivity | exact Z1]. }
  repeat split; [apply P | apply P | apply Q1 | apply Q1]; lia.
Qed.

Lemma export_crop_bounds_witness :
  multiplier (mkExportOptions (Some true) (Some 2)) = Some 2 /\
  exists sx sy sw sh,
    snd (getImageBase64 example_boundingRect (mkExportOptions (Some true) (Some 2)) Fulfilled
           example_editor) = Ok (Cropped sx sy sw sh) /\ (1 <= sw)%Z.
Proof.
  split; [reflexivity|].
  destruct (export_crop_bounds example_boundingRect (mkExportOptions (Some true) (Some 2))
              example_editor (mkImage 1000 800 true 1 0) 2)
    as ((sx & sy & sw & sh & E & _ & _ & W & _) & _);
    [vm_compute; reflexivity | reflexivity | reflexivity | vm_compute; discriminate |].
  exists sx, sy, sw, sh. split; assumption.
Defined.

(** X17: along any sequence of [addMask], [removeSelectedMask],
    [removeAllMasks], scale and rotate operations, [reset] and
    [getImageBase64] calls, the loaded image keeps its native size and
    source, and [maskCounter] never decreases. *)
Theorem edits_keep_image_and_counter (e e' : Editor) :
  edit_steps e e' ->
  native e' = native e /\ (maskCounter e <= maskCounter e')%Z.
Proof.
  induction 1 as [e|e e1 e2 S _ [IH1 IH2]]; [split; [reflexivity|lia]|].
  destruct (edit_step_native e e1 S) as [A B]. split; [congruence|lia].
Qed.

Lemma edits_keep_image_and_counter_witness :
  edit_steps example_editor (reset (fst (addMask no_config example_editor))) /\
  (maskCounter example_editor <= maskCounter (reset (fst (addMask no_config example_editor))))%Z.
Proof.
  assert (S : edit_steps example_editor (reset (fst (addMask no_config example_editor)))).
  { apply (edits_step _ (fst (addMask no_config example_editor))); [apply edit_addMask|].
    apply (edits_step _ (reset (fst (addMask no_config example_editor)))); [apply edit_reset|].
    apply edits_refl. }
  split; [exact S|]. exact (proj2 (edits_keep_image_and_counter _ _ S)).
Defined.

End Extras.
